(** * go-mongodb-client: storage adapter, retry decorator and identifier
      conversion, as a shallow embedding.

    The program:
    - [Hex]        encoding/hex and primitive.ObjectID as the conversion
                   [ObjectID] of storage.go uses them;
    - [GoErr]      error values: errors made elsewhere, the wrappers of
                   github.com/pkg/errors and fmt.Errorf, and the questions
                   the retry loop asks of an error;
    - [Int]        int64, uint64 and time.Duration;
    - [Eff]        the state monad the Go methods are written in, with a
                   trace of what a run does (calls, log lines, sleeps);
    - [Contract]   the interface StorageReaderWriter and its mock;
    - [Retrying]   RetryingStorage and its retry loop;
    - [Driver]     the driver operations Storage calls;
    - [Adapter]    Storage: RunInTransaction and FindMany;
    - [MemDB]      an in-memory database behind the driver interface;
    - [Script]     a mock upstream that answers from a script.

    - [Stack]      a RetryingStorage as the upstream of another;
    - [DriverOps], [AdapterOps]
                   FindOne, FindAll and the writes of Storage.

    The statements: [Runs], [Txn], [Pages], [HexCase] and [StorageRuns] hold
    their vocabulary; [HexFacts], [RetryFacts] and [StorageFacts], and after
    them [HexMore], [RunFacts] and [StorageMore], the proofs. *)

From Stdlib Require Import ZArith NArith List String Ascii Bool Lia.
From Stdlib Require Import Strings.Byte.
From Equations Require Import Equations.
From Stdlib Require Import Sorting.Sorted Sorting.Permutation.
Import ListNotations.

Local Open Scope Z_scope.

(* ===================================================================== *)
(** ** Hexadecimal identifiers *)
(* ===================================================================== *)

Module Hex.

(** A Go string is a sequence of bytes, and so is a Rocq [string]. *)
Definition bytes_of (s : string) : list byte := list_byte_of_string s.
Definition string_of (b : list byte) : string := string_of_list_byte b.

Definition byte_val (b : byte) : Z := Z.of_N (Byte.to_N b).

Definition byte_of_val (v : Z) : byte :=
  match Byte.of_N (Z.to_N (v mod 256)) with
  | Some b => b
  | None => x00
  end.

(** encoding/hex: [const hextable = "0123456789abcdef"]. *)
Definition hextable : list byte := bytes_of "0123456789abcdef".

Definition hextable_at (i : Z) : byte := nth (Z.to_nat i) hextable x00.

(** encoding/hex: the value of a hexadecimal digit, 255 for any other
    byte (the table [reverseHexTable]). *)
Definition reverseHexTable (c : byte) : Z :=
  let v := byte_val c in
  if (48 <=? v) && (v <=? 57) then v - 48
  else if (97 <=? v) && (v <=? 102) then v - 97 + 10
  else if (65 <=? v) && (v <=? 70) then v - 65 + 10
  else 255.

Inductive hex_error : Type :=
| InvalidByteError (b : byte)
| ErrLength
| ErrInvalidHex.

(** hex.Encode: two digits per source byte,
    [dst[j] = hextable[v>>4]; dst[j+1] = hextable[v&0x0f]]. *)
Fixpoint Encode (src : list byte) : list byte :=
  match src with
  | [] => []
  | v :: rest =>
      hextable_at (Z.shiftr (byte_val v) 4)
        :: hextable_at (Z.land (byte_val v) 15)
        :: Encode rest
  end.

(** hex.Decode: the bytes written to [dst] before it stops, and the error.
    A pair of digits [p q] gives [(a << 4) | b]; the first byte that is no
    digit stops the loop; an odd length is an error after the last pair. *)
Fixpoint Decode (src : list byte) : list byte * option hex_error :=
  match src with
  | [] => ([], None)
  | [p] =>
      if 15 <? reverseHexTable p then ([], Some (InvalidByteError p))
      else ([], Some ErrLength)
  | p :: q :: rest =>
      let a := reverseHexTable p in
      let b := reverseHexTable q in
      if 15 <? a then ([], Some (InvalidByteError p))
      else if 15 <? b then ([], Some (InvalidByteError q))
      else
        let '(out, err) := Decode rest in
        (byte_of_val (Z.lor (Z.shiftl a 4) b) :: out, err)
  end.

(** primitive.ObjectID is [[12]byte]. *)
Definition primitive_ObjectID : Type := list byte.

Definition NilObjectID : primitive_ObjectID := repeat x00 12.

(** [var oid [12]byte] after [hex.Decode(oid[:], src)] wrote [written]. *)
Definition fill12 (written : list byte) : primitive_ObjectID :=
  firstn 12 (written ++ NilObjectID).

(** primitive.ObjectIDFromHex. *)
Definition ObjectIDFromHex (s : string) : primitive_ObjectID * option hex_error :=
  if negb (Nat.eqb (String.length s) 24) then (NilObjectID, Some ErrInvalidHex)
  else
    let '(written, err) := Decode (bytes_of s) in
    match err with
    | Some e => (NilObjectID, Some e)
    | None => (fill12 written, None)
    end.

(** primitive.ObjectID.Hex. *)
Definition ObjectID_Hex (id : primitive_ObjectID) : string := string_of (Encode id).

(** storage.go, [ObjectID[T ~string](domainID T)]: the error is dropped. *)
Definition ObjectID (domainID : string) : primitive_ObjectID :=
  let '(objectID, _) := ObjectIDFromHex domainID in objectID.

(** What a valid representation is: 24 characters, each one of
    [0-9], [a-f], [A-F]. *)
Definition is_hex_digit (c : byte) : bool :=
  let v := byte_val c in
  ((48 <=? v) && (v <=? 57)) || ((97 <=? v) && (v <=? 102))
  || ((65 <=? v) && (v <=? 70)).

Definition is_hex24 (s : string) : bool :=
  Nat.eqb (String.length s) 24 && forallb is_hex_digit (bytes_of s).

End Hex.


(* ===================================================================== *)
(** ** Error values *)
(* ===================================================================== *)

Module GoErr.

(** An error value made outside this package (by the driver, the context
    package, the caller's transaction body): its text, and what each of the
    questions the retry loop asks answers on it. *)
Record Foreign : Type := mkForeign {
  f_text : string;                (* Error() *)
  f_canceled : bool;              (* errors.Is(e, context.Canceled) *)
  f_client_disconnected : bool;   (* errors.Is(e, mongo.ErrClientDisconnected) *)
  f_timeout : bool;               (* mongo.IsTimeout(e) *)
  f_network : bool;               (* mongo.IsNetworkError(e) *)
  f_retryable_pool : bool;        (* e.(driver.RetryablePoolError) succeeds *)
  f_wait_queue_timeout : bool     (* errors.As(e, &topology.WaitQueueTimeoutError{}) *)
}.

(** A non-nil [error]: a foreign value or one of the wrappers this package
    builds, pkg/errors' [withMessage] and [withStack] (the recorded stack is
    left out) and the [*fmt.wrapError] of [fmt.Errorf] with one [%w]. *)
Inductive error : Type :=
| Opaque (f : Foreign)
| withMessage (cause : error) (msg : string)
| withStack (inner : error)
| wrapError (msg : string) (err : error).

(** The method [Error()]. *)
Fixpoint Error (e : error) : string :=
  match e with
  | Opaque f => f_text f
  | withMessage cause msg => (msg ++ ": " ++ Error cause)%string
  | withStack inner => Error inner
  | wrapError msg _ => msg
  end.

(** errors.Unwrap: one step down the chain. *)
Definition Unwrap (e : error) : option error :=
  match e with
  | Opaque _ => None
  | withMessage cause _ => Some cause
  | withStack inner => Some inner
  | wrapError _ err => Some err
  end.

(** The sentinels the loop compares against. *)
Inductive sentinel : Type := context_Canceled | mongo_ErrClientDisconnected.

(** errors.Is against a sentinel: walks the [Unwrap] chain. *)
Fixpoint errors_Is (e : error) (target : sentinel) : bool :=
  match e with
  | Opaque f =>
      match target with
      | context_Canceled => f_canceled f
      | mongo_ErrClientDisconnected => f_client_disconnected f
      end
  | withMessage cause _ => errors_Is cause target
  | withStack inner => errors_Is inner target
  | wrapError _ err => errors_Is err target
  end.

(** mongo.IsTimeout and mongo.IsNetworkError walk the same chain. *)
Fixpoint mongo_IsTimeout (e : error) : bool :=
  match e with
  | Opaque f => f_timeout f
  | withMessage cause _ => mongo_IsTimeout cause
  | withStack inner => mongo_IsTimeout inner
  | wrapError _ err => mongo_IsTimeout err
  end.

Fixpoint mongo_IsNetworkError (e : error) : bool :=
  match e with
  | Opaque f => f_network f
  | withMessage cause _ => mongo_IsNetworkError cause
  | withStack inner => mongo_IsNetworkError inner
  | wrapError _ err => mongo_IsNetworkError err
  end.

(** The type assertion [err.(driver.RetryablePoolError)] looks at the
    dynamic type of [err] only; no wrapper has the method. *)
Definition is_RetryablePoolError (e : error) : bool :=
  match e with
  | Opaque f => f_retryable_pool f
  | _ => false
  end.

(** errors.As with a [topology.WaitQueueTimeoutError] target. *)
Fixpoint errors_As_WaitQueueTimeoutError (e : error) : bool :=
  match e with
  | Opaque f => f_wait_queue_timeout f
  | withMessage cause _ => errors_As_WaitQueueTimeoutError cause
  | withStack inner => errors_As_WaitQueueTimeoutError inner
  | wrapError _ err => errors_As_WaitQueueTimeoutError err
  end.

(** pkg/errors [Wrap]: nil stays nil, otherwise a message and a stack are
    put around the error. *)
Definition errors_Wrap (err : option error) (message : string) : option error :=
  match err with
  | None => None
  | Some e => Some (withStack (withMessage e message))
  end.

(** [fmt.Errorf("%w %v", a, b)]: the text of both, the first one wrapped. *)
Definition Errorf_w_v (a b : error) : error :=
  wrapError (Error a ++ " " ++ Error b)%string a.

(** The errors below [e] on its [Unwrap] chain, nearest first. *)
Fixpoint chain (e : error) : list error :=
  match e with
  | Opaque _ => []
  | withMessage cause _ => cause :: chain cause
  | withStack inner => inner :: chain inner
  | wrapError _ err => err :: chain err
  end.

End GoErr.

(* ===================================================================== *)
(** ** Machine integers and durations *)
(* ===================================================================== *)

Module Int.

Definition wrap_uint64 (z : Z) : Z := z mod 2 ^ 64.

Definition wrap_int64 (z : Z) : Z := (z + 2 ^ 63) mod 2 ^ 64 - 2 ^ 63.

(** time.Duration is an int64 count of nanoseconds. *)
Definition Duration : Type := Z.
Definition Millisecond : Duration := 1000000.

Definition mul_Duration (a b : Duration) : Duration := wrap_int64 (a * b).

End Int.

(* ===================================================================== *)
(** ** Sequencing *)
(* ===================================================================== *)

Module Eff.

(** A Go statement sequence over a state [S]. *)
Definition M (S A : Type) : Type := S -> A * S.

Definition ret {S A : Type} (a : A) : M S A := fun s => (a, s).

Definition bind {S A B : Type} (m : M S A) (k : A -> M S B) : M S B :=
  fun s => let '(a, s') := m s in k a s'.

Definition gets {S A : Type} (f : S -> A) : M S A := fun s => (f s, s).

Definition modify {S : Type} (f : S -> S) : M S unit := fun s => (tt, f s).

(** The state of a run: the state [W] of what is called (the upstream
    storage, the database), the variables [L] a closure captured, and the
    calls and other effects so far, oldest first. *)
Record Env (E W L : Type) : Type := mkEnv {
  world : W;
  locals : L;
  trace : list E
}.
Arguments mkEnv {E W L}.
Arguments world {E W L}.
Arguments locals {E W L}.
Arguments trace {E W L}.

Definition emit {E W L : Type} (ev : E) : M (Env E W L) unit :=
  modify (fun st => mkEnv (world st) (locals st) (trace st ++ [ev])).

(** A call into [W]: its effect there, and its mark [ev] in the trace. *)
Definition call {E W L A : Type} (ev : E) (f : M W A) : M (Env E W L) A :=
  fun st =>
    let '(a, w') := f (world st) in
    (a, mkEnv w' (locals st) (trace st ++ [ev])).

Definition set_local {E W L : Type} (v : L) : M (Env E W L) unit :=
  modify (fun st => mkEnv (world st) v (trace st)).

Definition get_local {E W L : Type} : M (Env E W L) L := gets locals.

(** A block that declares a variable, runs [body] with it in scope and
    leaves with the body's value. *)
Definition with_local {E W L A : Type} (init : L) (body : M (Env E W L) A)
  : M (Env E W unit) A :=
  fun st =>
    let '(a, st') := body (mkEnv (world st) init (trace st)) in
    (a, mkEnv (world st') tt (trace st')).

(** Where a run starts: nothing has happened yet. *)
Definition start {E W : Type} (w : W) : Env E W unit := mkEnv w tt [].

End Eff.

Declare Scope eff_scope.
Delimit Scope eff_scope with eff.
Notation "x <- m ;; k" := (Eff.bind m (fun x => k))
  (at level 61, m at next level, right associativity) : eff_scope.
Notation "' pat <- m ;; k" := (Eff.bind m (fun x => match x with pat => k end))
  (at level 61, pat pattern, m at next level, right associativity) : eff_scope.
Notation "m ;; k" := (Eff.bind m (fun _ => k))
  (at level 61, right associativity) : eff_scope.

(* ===================================================================== *)
(** ** The storage contract and its mock *)
(* ===================================================================== *)

Module Contract.
Import GoErr Eff.

Section Interfaces.
(** [Ctx] stands for context.Context and [Any] for the [interface{}]
    arguments (filters, documents, updates, destinations); [W] is the
    state an implementation works on. *)
Variables (Ctx Any W : Type).

(** The interface StorageReaderWriter (StorageReader, StorageWriter and
    GetDatabaseName): an interface value is the table of its methods. *)
Record StorageReaderWriter : Type := {
  FindOne : Ctx -> string -> Any -> Any -> M W (option error);
  FindAll : Ctx -> string -> Any -> Any -> M W (option error);
  FindMany : Ctx -> string -> Any -> Z -> Z -> string -> Any
             -> M W (Z * option error);
  RunInTransaction : Ctx -> (Ctx -> M W (option error)) -> M W (option error);
  Insert : Ctx -> string -> Any -> M W (option error);
  Update : Ctx -> string -> Hex.primitive_ObjectID -> Any -> M W (Z * option error);
  Upsert : Ctx -> string -> Any -> Any -> M W (Z * option error);
  Delete : Ctx -> string -> Hex.primitive_ObjectID -> M W (Z * option error);
  DeleteMany : Ctx -> string -> Any -> M W (Z * option error);
  GetDatabaseName : M W string
}.

(** MockedStorageReader and MockedStorageWriter: one function field per
    method (every field used is set). *)
Record MockedStorageReader : Type := {
  FindMock : Ctx -> string -> Any -> Any -> M W (option error);
  FindAllMock : Ctx -> string -> Any -> Any -> M W (option error);
  FindManyMock : Ctx -> string -> Any -> Z -> Z -> string -> Any
                 -> M W (Z * option error)
}.

Record MockedStorageWriter : Type := {
  RunInTransactionMock : Ctx -> (Ctx -> M W (option error)) -> M W (option error);
  InsertMock : Ctx -> string -> Any -> M W (option error);
  UpdateMock : Ctx -> string -> Hex.primitive_ObjectID -> Any -> M W (Z * option error);
  UpsertMock : Ctx -> string -> Any -> Any -> M W (Z * option error);
  DeleteMock : Ctx -> string -> Hex.primitive_ObjectID -> M W (Z * option error);
  DeleteManyMock : Ctx -> string -> Any -> M W (Z * option error)
}.

Record MockedStorageReaderWriter : Type := {
  reader : MockedStorageReader;
  writer : MockedStorageWriter
}.

(** The methods of the mock hand every call to the matching field. *)
Definition mock_interface (mock : MockedStorageReaderWriter) : StorageReaderWriter := {|
  FindOne := fun ctx collection filter dest =>
    FindMock (reader mock) ctx collection filter dest;
  FindAll := fun ctx collection filter dest =>
    FindAllMock (reader mock) ctx collection filter dest;
  FindMany := fun ctx collection filter limit offset sort dest =>
    FindManyMock (reader mock) ctx collection filter limit offset sort dest;
  RunInTransaction := fun ctx fn => RunInTransactionMock (writer mock) ctx fn;
  Insert := fun ctx collection document =>
    InsertMock (writer mock) ctx collection document;
  Update := fun ctx collection docID update =>
    UpdateMock (writer mock) ctx collection docID update;
  Upsert := fun ctx collection docID update =>
    UpsertMock (writer mock) ctx collection docID update;
  Delete := fun ctx collection docID => DeleteMock (writer mock) ctx collection docID;
  DeleteMany := fun ctx collection filter =>
    DeleteManyMock (writer mock) ctx collection filter;
  GetDatabaseName := ret "test-database"%string
|}.
End Interfaces.

Arguments FindOne {Ctx Any W}.
Arguments FindAll {Ctx Any W}.
Arguments FindMany {Ctx Any W}.
Arguments RunInTransaction {Ctx Any W}.
Arguments Insert {Ctx Any W}.
Arguments Update {Ctx Any W}.
Arguments Upsert {Ctx Any W}.
Arguments Delete {Ctx Any W}.
Arguments DeleteMany {Ctx Any W}.
Arguments GetDatabaseName {Ctx Any W}.
Arguments mock_interface {Ctx Any W}.

End Contract.

(* ===================================================================== *)
(** ** RetryingStorage *)
(* ===================================================================== *)

Module Retrying.
Import GoErr Eff Int.
Local Open Scope eff_scope.

(** The methods of the upstream storage. *)
Inductive method : Type :=
| mFindOne | mFindAll | mFindMany
| mRunInTransaction | mInsert | mUpdate | mUpsert | mDelete | mDeleteMany
| mGetDatabaseName.

(** What a run of the decorator does that can be seen from outside, in the
    order it happens. *)
Inductive event : Type :=
| Upstream (m : method)                                (* a call on s.upstream *)
| Info (msg : string) (attempt : Z) (text : string)    (* s.logger.Info *)
| Sleep (d : Duration).                                (* time.Sleep *)

Definition inspect {A : Type} (a : A) : {b : A | a = b} := exist _ a eq_refl.

Definition maxRetries : Z := 10.

(** How many more times the loop body can be entered: what [retry]
    terminates by. *)
Definition remaining (attempt : Z) : nat := Z.to_nat (maxRetries + 1 - attempt).
Arguments remaining : simpl never.

(** [10 * time.Duration(attempt) * time.Millisecond] *)
Definition backoff (attempt : Z) : Duration :=
  mul_Duration (mul_Duration 10 (wrap_int64 attempt)) Millisecond.

Section Decorator.
Variables (Ctx Any W : Type).

(** A call of method [m] on the upstream. *)
Definition upcall {L A : Type} (m : method) (f : M W A) : M (Env event W L) A :=
  call (Upstream m) f.

Definition logger_Info {L : Type} (msg : string) (attempt : Z) (e : error)
  : M (Env event W L) unit :=
  emit (Info msg attempt (Error e)).

Definition time_Sleep {L : Type} (d : Duration) : M (Env event W L) unit :=
  emit (Sleep d).

(** RetryingStorage holds the upstream; what its logger is told goes to
    the trace. *)
Record RetryingStorage : Type := NewRetryingStorage {
  upstream : Contract.StorageReaderWriter Ctx Any W
}.

(** The [for] loop of [retry], entered with the current [err] and
    [attempt]; a [break] leaves the loop for [return err]. *)
Equations? retry_loop {L : Type} (fn : M (Env event W L) (option error))
    (err : option error) (attempt : Z) : M (Env event W L) (option error)
  by wf (remaining attempt) lt :=
retry_loop fn err attempt with inspect (attempt >? maxRetries) := {
  | exist _ true _ => ret (errors_Wrap err "exceeded retry limit")
  | exist _ false Hle =>
      err <- fn ;;
      match err with
      | None => ret None
      | Some e =>
          if errors_Is e context_Canceled then ret err
          else if errors_Is e mongo_ErrClientDisconnected then
            logger_Info "retrying mongodb client disconnected" attempt e ;;
            time_Sleep (backoff attempt) ;;
            retry_loop fn err (attempt + 1)
          else if mongo_IsTimeout e then
            logger_Info "retrying mongodb timeout" attempt e ;;
            time_Sleep (backoff attempt) ;;
            retry_loop fn err (attempt + 1)
          else if mongo_IsNetworkError e then
            logger_Info "retrying mongodb network error" attempt e ;;
            time_Sleep (backoff attempt) ;;
            retry_loop fn err (attempt + 1)
          else if is_RetryablePoolError e then
            logger_Info "retrying mongodb pool error" attempt e ;;
            time_Sleep (backoff attempt) ;;
            retry_loop fn err (attempt + 1)
          else if errors_As_WaitQueueTimeoutError e then
            logger_Info "retrying WaitQueueTimeoutError" attempt e ;;
            time_Sleep (backoff attempt) ;;
            retry_loop fn err (attempt + 1)
          else ret err
      end }.
Proof.
  all: clear retry_loop; rewrite Z.gtb_ltb in Hle; apply Z.ltb_ge in Hle;
    unfold remaining, maxRetries in *; lia.
Defined.

(** [retry]: [err] starts nil and [attempt] at 1. *)
Definition retry {L : Type} (fn : M (Env event W L) (option error))
  : M (Env event W L) (option error) :=
  retry_loop fn None 1.

Variable s : RetryingStorage.

Definition FindOne (ctx : Ctx) (collection : string) (filter dest : Any)
  : M (Env event W unit) (option error) :=
  retry (upcall mFindOne (Contract.FindOne (upstream s) ctx collection filter dest)).

Definition FindAll (ctx : Ctx) (collection : string) (filter dest : Any)
  : M (Env event W unit) (option error) :=
  retry (upcall mFindAll (Contract.FindAll (upstream s) ctx collection filter dest)).

(** The closure assigns the named results [total] and [err] at every
    attempt; [err] is then assigned what [retry] returns. *)
Definition FindMany (ctx : Ctx) (collection : string) (filter : Any)
    (limit offset : Z) (sort : string) (dest : Any)
  : M (Env event W unit) (Z * option error) :=
  with_local 0 (
    err <- retry (
      ' (total, err) <- upcall mFindMany
          (Contract.FindMany (upstream s) ctx collection filter limit offset sort dest) ;;
      set_local total ;;
      ret err) ;;
    total <- get_local ;;
    ret (total, err)).

Definition RunInTransaction (ctx : Ctx) (fn : Ctx -> M W (option error))
  : M (Env event W unit) (option error) :=
  upcall mRunInTransaction (Contract.RunInTransaction (upstream s) ctx fn).

Definition Insert (ctx : Ctx) (collection : string) (document : Any)
  : M (Env event W unit) (option error) :=
  upcall mInsert (Contract.Insert (upstream s) ctx collection document).

Definition Update (ctx : Ctx) (collection : string) (docID : Hex.primitive_ObjectID)
    (update : Any) : M (Env event W unit) (Z * option error) :=
  upcall mUpdate (Contract.Update (upstream s) ctx collection docID update).

Definition Upsert (ctx : Ctx) (collection : string) (docID update : Any)
  : M (Env event W unit) (Z * option error) :=
  upcall mUpsert (Contract.Upsert (upstream s) ctx collection docID update).

Definition Delete (ctx : Ctx) (collection : string) (docID : Hex.primitive_ObjectID)
  : M (Env event W unit) (Z * option error) :=
  upcall mDelete (Contract.Delete (upstream s) ctx collection docID).

Definition DeleteMany (ctx : Ctx) (collection : string) (filter : Any)
  : M (Env event W unit) (Z * option error) :=
  upcall mDeleteMany (Contract.DeleteMany (upstream s) ctx collection filter).

Definition GetDatabaseName : M (Env event W unit) string :=
  upcall mGetDatabaseName (Contract.GetDatabaseName (upstream s)).

End Decorator.

Arguments upstream {Ctx Any W}.
Arguments retry_loop {W L}.
Arguments retry {W L}.
Arguments FindOne {Ctx Any W}.
Arguments FindAll {Ctx Any W}.
Arguments FindMany {Ctx Any W}.
Arguments RunInTransaction {Ctx Any W}.
Arguments Insert {Ctx Any W}.
Arguments Update {Ctx Any W}.
Arguments Upsert {Ctx Any W}.
Arguments Delete {Ctx Any W}.
Arguments DeleteMany {Ctx Any W}.
Arguments GetDatabaseName {Ctx Any W}.

End Retrying.

(* ===================================================================== *)
(** ** The driver as Storage uses it *)
(* ===================================================================== *)

Module Driver.
Import GoErr Eff.

(** options.FindOptions: the three settings FindMany touches; [None] is an
    option left unset.  [Sort] is a [bson.D], a list of key and value. *)
Record FindOptions : Type := mkFindOptions {
  Limit : option Z;
  Skip : option Z;
  Sort : option (list (string * Z))
}.

Definition options_Find : FindOptions := mkFindOptions None None None.
Definition SetLimit (o : FindOptions) (i : Z) : FindOptions :=
  mkFindOptions (Some i) (Skip o) (Sort o).
Definition SetSkip (o : FindOptions) (i : Z) : FindOptions :=
  mkFindOptions (Limit o) (Some i) (Sort o).
Definition SetSort (o : FindOptions) (d : list (string * Z)) : FindOptions :=
  mkFindOptions (Limit o) (Skip o) (Some d).

(** options.SessionOptions, as far as RunInTransaction sets them. *)
Inductive session_option : Type :=
| DefaultReadConcern (level : string)
| DefaultReadPreference (mode : string).

Definition readconcern_Majority : string := "majority".
Definition readpref_Primary : string := "primary".

(** The calls Storage makes on the driver, as they show in a trace. *)
Inductive dcall : Type :=
| CountDocuments_ (collection : string)
| Find_ (collection : string) (opts : FindOptions)
| All_
| StartSession_ (opts : list session_option)
| StartTransaction_
| Fn_
| CommitTransaction_
| AbortTransaction_
| EndSession_.

Section Interface.
Variables (Ctx Any W Cursor Session : Type).

(** A [*mongo.Database] with what hangs off it: collections, cursors,
    sessions.  Find and StartSession give a cursor or session exactly when
    they give no error, so their [(value, error)] result is a sum; the count
    comes with the error. *)
Record Database : Type := {
  CountDocuments : Ctx -> string -> Any -> M W (Z * option error);
  Find : Ctx -> string -> Any -> FindOptions -> M W (Cursor + error);
  All : Cursor -> Ctx -> Any -> M W (option error);
  StartSession : list session_option -> M W (Session + error);
  NewSessionContext : Ctx -> Session -> Ctx;
  StartTransaction : Session -> M W (option error);
  CommitTransaction : Session -> Ctx -> M W (option error);
  AbortTransaction : Session -> Ctx -> M W (option error);
  EndSession : Session -> Ctx -> M W unit
}.
End Interface.

Arguments CountDocuments {Ctx Any W Cursor Session}.
Arguments Find {Ctx Any W Cursor Session}.
Arguments All {Ctx Any W Cursor Session}.
Arguments StartSession {Ctx Any W Cursor Session}.
Arguments NewSessionContext {Ctx Any W Cursor Session}.
Arguments StartTransaction {Ctx Any W Cursor Session}.
Arguments CommitTransaction {Ctx Any W Cursor Session}.
Arguments AbortTransaction {Ctx Any W Cursor Session}.
Arguments EndSession {Ctx Any W Cursor Session}.

End Driver.

(* ===================================================================== *)
(** ** Storage, the direct adapter *)
(* ===================================================================== *)

Module Adapter.
Import GoErr Eff Int Driver.
Local Open Scope eff_scope.

(** strings.HasPrefix and strings.TrimPrefix. *)
Definition strings_HasPrefix (s p : string) : bool := String.prefix p s.

Definition strings_TrimPrefix (s p : string) : string :=
  if strings_HasPrefix s p
  then substring (String.length p) (String.length s - String.length p) s
  else s.

Section Storage.
Variables (Ctx Any W Cursor Session : Type).

Record Storage : Type := MakeStorage {
  database : Database Ctx Any W Cursor Session
}.

Variable s : Storage.

Definition St : Type := Env dcall W unit.

(** RunInTransaction.  The closure given to mongo.WithSession runs with
    the session's context; [defer sess.EndSession(ctx)] runs at every return
    after the session exists. *)
Definition RunInTransaction (ctx : Ctx) (fn : Ctx -> M W (option error))
  : M St (option error) :=
  let opts := [DefaultReadConcern readconcern_Majority;
               DefaultReadPreference readpref_Primary] in
  r <- call (StartSession_ opts) (StartSession (database s) opts) ;;
  match r with
  | inr err => ret (Some err)
  | inl sess =>
      err <- (let sessCtx := NewSessionContext (database s) ctx sess in
              err <- call StartTransaction_ (StartTransaction (database s) sess) ;;
              match err with
              | Some _ => ret err
              | None =>
                  err <- call Fn_ (fn sessCtx) ;;
                  match err with
                  | Some _ => ret err
                  | None =>
                      call CommitTransaction_
                        (CommitTransaction (database s) sess sessCtx)
                  end
              end) ;;
      result <- match err with
                | Some e =>
                    abortErr <- call AbortTransaction_
                                  (AbortTransaction (database s) sess ctx) ;;
                    match abortErr with
                    | Some a => ret (Some (Errorf_w_v a e))
                    | None => ret err
                    end
                | None => ret None
                end ;;
      call EndSession_ (EndSession (database s) sess ctx) ;;
      ret result
  end.

(** FindMany: a count, then the paged and sorted fetch. *)
Definition FindMany (ctx : Ctx) (collection : string) (filter : Any)
    (limit offset : Z) (sort : string) (dest : Any)
  : M St (Z * option error) :=
  ' (count, err) <- call (CountDocuments_ collection)
                      (CountDocuments (database s) ctx collection filter) ;;
  match err with
  | Some _ => ret (wrap_uint64 count, err)
  | None =>
      let findOptions :=
        SetSkip (SetLimit options_Find (wrap_int64 limit)) (wrap_int64 offset) in
      let findOptions :=
        if negb (String.eqb sort EmptyString) then
          let '(sortKey, sortValue) :=
            if strings_HasPrefix sort "-"
            then (strings_TrimPrefix sort "-", -1)
            else (sort, 1) in
          SetSort findOptions [(sortKey, sortValue)]
        else findOptions in
      r <- call (Find_ collection findOptions)
             (Find (database s) ctx collection filter findOptions) ;;
      match r with
      | inr err => ret (wrap_uint64 count, Some err)
      | inl cursor =>
          err <- call All_ (All (database s) cursor ctx dest) ;;
          ret (wrap_uint64 count, err)
      end
  end.

End Storage.

Arguments database {Ctx Any W Cursor Session}.
Arguments RunInTransaction {Ctx Any W Cursor Session}.
Arguments FindMany {Ctx Any W Cursor Session}.

End Adapter.

(* ===================================================================== *)
(** ** An in-memory database *)
(* ===================================================================== *)

(** A database to run Storage against, after the driver's documentation of
    Find and its options: documents are filtered, sorted, skipped, limited,
    in that order; a limit of 0 is no limit, a negative limit counts as its
    absolute value; a negative skip and an empty sort key are refused.
    Documents have integer fields; sessions and transactions do nothing but
    answer as the fault plan of the state says. *)
Module MemDB.
Import GoErr Eff Driver.

Definition Document : Type := list (string * Z).

Fixpoint field (d : Document) (k : string) : option Z :=
  match d with
  | [] => None
  | (k', v) :: rest => if String.eqb k k' then Some v else field rest k
  end.

(** The order of values: a missing field comes before every number. *)
Definition value_leb (a b : option Z) : bool :=
  match a, b with
  | None, _ => true
  | Some _, None => false
  | Some x, Some y => x <=? y
  end.

(** Ascending on [k] for a direction of 1, descending for -1. *)
Definition key_leb (k : string) (dir : Z) (a b : Document) : bool :=
  if dir <? 0 then value_leb (field b k) (field a k)
  else value_leb (field a k) (field b k).

Fixpoint insert_by (leb : Document -> Document -> bool) (d : Document)
    (l : list Document) : list Document :=
  match l with
  | [] => [d]
  | x :: rest => if leb d x then d :: l else x :: insert_by leb d rest
  end.

Fixpoint sort_by (leb : Document -> Document -> bool) (l : list Document)
  : list Document :=
  match l with
  | [] => []
  | d :: rest => insert_by leb d (sort_by leb rest)
  end.

(** The first key of the sort document decides, later keys break ties. *)
Definition apply_sort (sort : option (list (string * Z))) (l : list Document)
  : list Document :=
  match sort with
  | None => l
  | Some keys => fold_right (fun kd acc => sort_by (key_leb (fst kd) (snd kd)) acc) l keys
  end.

Definition apply_skip (skip : option Z) (l : list Document) : list Document :=
  match skip with
  | None => l
  | Some n => skipn (Z.to_nat n) l
  end.

Definition apply_limit (limit : option Z) (l : list Document) : list Document :=
  match limit with
  | None => l
  | Some n => if n =? 0 then l else firstn (Z.to_nat (Z.abs n)) l
  end.

(** The [interface{}] values Storage is given: a filter, or a pointer to
    the slice to decode into. *)
Inductive any : Type :=
| AFilter (p : Document -> bool)
| ADest (slot : nat).

Record dbstate : Type := mkDB {
  collections : string -> list Document;
  slots : nat -> list Document;
  start_session_fault : option error;
  start_transaction_fault : option error;
  commit_fault : option error;
  abort_fault : option error
}.

Definition plain (text : string) : error :=
  Opaque (mkForeign text false false false false false false).

Definition matching (w : dbstate) (collection : string) (p : Document -> bool)
  : list Document :=
  filter p (collections w collection).

Definition bad_sort_key (sort : option (list (string * Z))) : bool :=
  match sort with
  | None => false
  | Some keys => existsb (fun kd => String.eqb (fst kd) EmptyString) keys
  end.

Definition mem_CountDocuments (_ : unit) (collection : string) (f : any)
  : M dbstate (Z * option error) :=
  fun w =>
    match f with
    | AFilter p => ((Z.of_nat (List.length (matching w collection p)), None), w)
    | ADest _ => ((0, Some (plain "cannot transform type to a BSON Document")), w)
    end.

Definition mem_Find (_ : unit) (collection : string) (f : any) (o : FindOptions)
  : M dbstate (list Document + error) :=
  fun w =>
    match f with
    | ADest _ => (inr (plain "cannot transform type to a BSON Document"), w)
    | AFilter p =>
        if match Skip o with Some n => n <? 0 | None => false end
        then (inr (plain "skip value must be non-negative"), w)
        else if bad_sort_key (Sort o)
        then (inr (plain "sort key must not be empty"), w)
        else
          (inl (apply_limit (Limit o)
                  (apply_skip (Skip o)
                     (apply_sort (Sort o) (matching w collection p)))), w)
    end.

Definition store (w : dbstate) (slot : nat) (docs : list Document) : dbstate :=
  mkDB (collections w)
          (fun n => if Nat.eqb n slot then docs else slots w n)
          (start_session_fault w) (start_transaction_fault w)
          (commit_fault w) (abort_fault w).

Definition mem_All (cursor : list Document) (_ : unit) (dest : any)
  : M dbstate (option error) :=
  fun w =>
    match dest with
    | ADest slot => (None, store w slot cursor)
    | AFilter _ => (Some (plain "results argument must be a pointer to a slice"), w)
    end.

Definition mem_StartSession (_ : list session_option) : M dbstate (unit + error) :=
  fun w =>
    match start_session_fault w with
    | Some e => (inr e, w)
    | None => (inl tt, w)
    end.

Definition memdb : Database unit any dbstate (list Document) unit := {|
  CountDocuments := mem_CountDocuments;
  Find := mem_Find;
  All := mem_All;
  StartSession := mem_StartSession;
  NewSessionContext := fun ctx _ => ctx;
  StartTransaction := fun _ => gets start_transaction_fault;
  CommitTransaction := fun _ _ => gets commit_fault;
  AbortTransaction := fun _ _ => gets abort_fault;
  EndSession := fun _ _ => ret tt
|}.

Definition storage : Adapter.Storage unit any dbstate (list Document) unit :=
  Adapter.MakeStorage _ _ _ _ _ memdb.

(** A database with one collection, ["people"], and no faults. *)
Definition people (docs : list Document) : dbstate :=
  mkDB (fun c => if String.eqb c "people" then docs else [])
          (fun _ => []) None None None None.

End MemDB.

(* ===================================================================== *)
(** ** Vocabulary for statements about runs *)
(* ===================================================================== *)

Module Runs.
Import GoErr Eff Int Retrying.

(** The error answers to one of the five transient categories. *)
Definition transient_category (e : error) : bool :=
  errors_Is e mongo_ErrClientDisconnected
  || mongo_IsTimeout e
  || mongo_IsNetworkError e
  || is_RetryablePoolError e
  || errors_As_WaitQueueTimeoutError e.

Definition is_cancellation (e : error) : bool := errors_Is e context_Canceled.

(** A recognized transient error: one of the categories, and no
    cancellation (a cancellation is a class of its own, whatever else the
    error answers to). *)
Definition transient (e : error) : bool :=
  negb (is_cancellation e) && transient_category e.

(** The log line of the first category that matches, in the order the
    loop asks. *)
Definition retry_message (e : error) : string :=
  if errors_Is e mongo_ErrClientDisconnected then "retrying mongodb client disconnected"
  else if mongo_IsTimeout e then "retrying mongodb timeout"
  else if mongo_IsNetworkError e then "retrying mongodb network error"
  else if is_RetryablePoolError e then "retrying mongodb pool error"
  else "retrying WaitQueueTimeoutError".

(** What attempt number [k] leaves in the trace when it fails with the
    transient [e]: the call, the log line, the sleep of 10 ms times [k]. *)
Definition retried (m : method) (k : Z) (e : error) : list event :=
  [Upstream m; Info (retry_message e) k (Error e); Sleep (10 * k * Millisecond)].

Fixpoint retries (m : method) (k : Z) (errs : list error) : list event :=
  match errs with
  | [] => []
  | e :: rest => retried m k e ++ retries m (k + 1) rest
  end.

(** The results of [n] calls of [op] one after the other, and the state
    they leave. *)
Fixpoint attempts {W R : Type} (op : M W R) (n : nat) (w : W) : list R * W :=
  match n with
  | O => ([], w)
  | S n' =>
      let '(r, w1) := op w in
      let '(rs, w2) := attempts op n' w1 in
      (r :: rs, w2)
  end.

Definition is_upstream (ev : event) : bool :=
  match ev with Upstream _ => true | _ => false end.

(** How many calls went to the upstream. *)
Definition calls (tr : list event) : nat := List.length (filter is_upstream tr).

(** The sleeps of a trace, in order. *)
Fixpoint sleeps (tr : list event) : list Duration :=
  match tr with
  | [] => []
  | Sleep d :: rest => d :: sleeps rest
  | _ :: rest => sleeps rest
  end.

Definition total_sleep (tr : list event) : Duration := fold_right Z.add 0 (sleeps tr).

(** 10 ms, 20 ms, ... for attempts [k], [k+1], ... *)
Fixpoint linear_backoffs (k : Z) (n : nat) : list Duration :=
  match n with
  | O => []
  | S n' => 10 * k * Millisecond :: linear_backoffs (k + 1) n'
  end.

(** A failed attempt as the upstream returns it: the count, and the error. *)
Definition failed (r : Z * error) : Z * option error := (fst r, Some (snd r)).

(** An outcome the loop does not go round again for. *)
Definition settles (r : option error) : bool :=
  match r with
  | None => true
  | Some e => negb (transient e)
  end.

Section Reads.
Variables (Ctx Any W : Type).

(** A read with its arguments.  A read returns a count and an error;
    FindOne and FindAll have no count, 0 stands in for it. *)
Inductive read_call : Type :=
| CallFindOne (ctx : Ctx) (collection : string) (filter dest : Any)
| CallFindAll (ctx : Ctx) (collection : string) (filter dest : Any)
| CallFindMany (ctx : Ctx) (collection : string) (filter : Any)
    (limit offset : Z) (sort : string) (dest : Any).

Definition method_of (c : read_call) : method :=
  match c with
  | CallFindOne _ _ _ _ => mFindOne
  | CallFindAll _ _ _ _ => mFindAll
  | CallFindMany _ _ _ _ _ _ _ => mFindMany
  end.

Definition no_count {S : Type} (op : M S (option error)) : M S (Z * option error) :=
  fun st => let '(err, st') := op st in ((0, err), st').

(** The read on the upstream itself. *)
Definition upstream_read (up : Contract.StorageReaderWriter Ctx Any W)
    (c : read_call) : M W (Z * option error) :=
  match c with
  | CallFindOne ctx collection filter dest =>
      no_count (Contract.FindOne up ctx collection filter dest)
  | CallFindAll ctx collection filter dest =>
      no_count (Contract.FindAll up ctx collection filter dest)
  | CallFindMany ctx collection filter limit offset sort dest =>
      Contract.FindMany up ctx collection filter limit offset sort dest
  end.

(** The read through the decorator. *)
Definition decorated_read (s : RetryingStorage Ctx Any W) (c : read_call)
  : M (Env event W unit) (Z * option error) :=
  match c with
  | CallFindOne ctx collection filter dest =>
      no_count (FindOne s ctx collection filter dest)
  | CallFindAll ctx collection filter dest =>
      no_count (FindAll s ctx collection filter dest)
  | CallFindMany ctx collection filter limit offset sort dest =>
      FindMany s ctx collection filter limit offset sort dest
  end.

(** A decorated method hands the call to the upstream method and does
    nothing else: one call, the upstream's result and state. *)
Definition passes_through {R : Type} (m : method)
    (decorated : M (Env event W unit) R) (direct : M W R) : Prop :=
  forall w : W,
    decorated (start w) = (fst (direct w), mkEnv (snd (direct w)) tt [Upstream m]).

End Reads.

Arguments CallFindOne {Ctx Any}.
Arguments CallFindAll {Ctx Any}.
Arguments CallFindMany {Ctx Any}.
Arguments method_of {Ctx Any}.
Arguments upstream_read {Ctx Any W}.
Arguments decorated_read {Ctx Any W}.
Arguments passes_through {W R}.

End Runs.

(* ===================================================================== *)
(** ** A scripted upstream *)
(* ===================================================================== *)

(** A mock whose every method answers with the next entry of a script, and
    with success once the script has run out. *)
Module Script.
Import GoErr Eff Contract.

Definition script : Type := list (Z * option error).

Definition next : M script (Z * option error) :=
  fun sc =>
    match sc with
    | [] => ((0, None), [])
    | r :: rest => (r, rest)
    end.

Definition next_error : M script (option error) :=
  fun sc => let '((_, err), sc') := next sc in (err, sc').

Definition mock : MockedStorageReaderWriter unit unit script := {|
  reader := {|
    FindMock := fun _ _ _ _ => next_error;
    FindAllMock := fun _ _ _ _ => next_error;
    FindManyMock := fun _ _ _ _ _ _ _ => next |};
  writer := {|
    RunInTransactionMock := fun _ _ => next_error;
    InsertMock := fun _ _ _ => next_error;
    UpdateMock := fun _ _ _ _ => next;
    UpsertMock := fun _ _ _ _ => next;
    DeleteMock := fun _ _ _ => next;
    DeleteManyMock := fun _ _ _ => next |}
|}.

Definition retrying : Retrying.RetryingStorage unit unit script :=
  Retrying.NewRetryingStorage _ _ _ (mock_interface mock).

(** Errors to script with. *)
Definition timeout (text : string) : error :=
  Opaque (mkForeign text false false true false false false).

Definition network (text : string) : error :=
  Opaque (mkForeign text false false false true false false).

Definition not_found : error :=
  Opaque (mkForeign "mongo: no documents in result" false false false false false false).

(** A network error that wraps context.Canceled. *)
Definition canceled_network : error :=
  Opaque (mkForeign "connection closed: context canceled"
            true false false true false false).

End Script.

(* ===================================================================== *)
(** ** Vocabulary for statements about Storage *)
(* ===================================================================== *)

Module Txn.
Import GoErr Eff Driver.

Section Body.
Variables (Ctx Any W Cursor Session : Type).
Variable db : Database Ctx Any W Cursor Session.
Variable ctx : Ctx.
Variable fn : Ctx -> M W (option error).
Variable sess : Session.

(** The body of the transaction: start it, run [fn] with the session's
    context, commit.  It commits when each of the three gives no error. *)
Definition body_commits (w w' : W) : Prop :=
  exists w1 w2,
    StartTransaction db sess w = (None, w1) /\
    fn (NewSessionContext db ctx sess) w1 = (None, w2) /\
    CommitTransaction db sess (NewSessionContext db ctx sess) w2 = (None, w').

(** It fails at the first of the three that gives an error: [done] are
    the calls made up to there, [e] the error, [w'] the state it leaves. *)
Inductive body_fails (w : W) : list dcall -> error -> W -> Prop :=
| start_fails (e : error) (w' : W) :
    StartTransaction db sess w = (Some e, w') ->
    body_fails w [StartTransaction_] e w'
| fn_fails (e : error) (w1 w' : W) :
    StartTransaction db sess w = (None, w1) ->
    fn (NewSessionContext db ctx sess) w1 = (Some e, w') ->
    body_fails w [StartTransaction_; Fn_] e w'
| commit_fails (e : error) (w1 w2 w' : W) :
    StartTransaction db sess w = (None, w1) ->
    fn (NewSessionContext db ctx sess) w1 = (None, w2) ->
    CommitTransaction db sess (NewSessionContext db ctx sess) w2 = (Some e, w') ->
    body_fails w [StartTransaction_; Fn_; CommitTransaction_] e w'.

End Body.

Arguments body_commits {Ctx Any W Cursor Session}.
Arguments body_fails {Ctx Any W Cursor Session}.

(** The session options RunInTransaction asks for. *)
Definition session_options : list session_option :=
  [DefaultReadConcern readconcern_Majority; DefaultReadPreference readpref_Primary].

(** The error [ret] holds the error [e] as a value: it is [e], or [e] is on
    its [Unwrap] chain (what errors.Is and errors.As can find). *)
Definition carries (ret e : error) : Prop := ret = e \/ In e (chain ret).

(** What is claimed of a failed abort: the error returned holds both the
    abort's error and the error that led to the abort. *)
Definition abort_failure_keeps_both : Prop :=
  forall (Ctx Any W Cursor Session : Type)
         (s : Adapter.Storage Ctx Any W Cursor Session)
         (ctx : Ctx) (fn : Ctx -> M W (option error)) (w w0 : W) (sess : Session)
         (done : list dcall) (e : error) (w1 : W) (a : error) (w2 : W),
    StartSession (Adapter.database s) session_options w = (inl sess, w0) ->
    body_fails (Adapter.database s) ctx fn sess w0 done e w1 ->
    AbortTransaction (Adapter.database s) sess ctx w1 = (Some a, w2) ->
    exists ret,
      fst (Adapter.RunInTransaction s ctx fn (start w)) = Some ret /\
      carries ret a /\
      carries ret e.

End Txn.

Module Pages.
Import MemDB.

(** The sort document FindMany sends for a sort string, if any. *)
Definition sort_option (sort : string) : option (list (string * Z)) :=
  if String.eqb sort EmptyString then None
  else if Adapter.strings_HasPrefix sort "-"
       then Some [(Adapter.strings_TrimPrefix sort "-", -1)]
       else Some [(sort, 1)].

(** Each document's value of field [F] is at least the next one's. *)
Definition descending_on (F : string) (l : list Document) : Prop :=
  Sorted (fun a b => value_leb (field b F) (field a F) = true) l.

Definition ascending_on (F : string) (l : list Document) : Prop :=
  Sorted (fun a b => value_leb (field a F) (field b F) = true) l.

(** What is left of [l] after skipping [offset] and taking at most
    [limit]. *)
Definition window (limit offset : Z) (l : list Document) : list Document :=
  firstn (Z.to_nat limit) (skipn (Z.to_nat offset) l).

(** The bound on the page as it is claimed: a successful FindMany leaves
    at most [limit] documents in the destination, a limit of 0 included. *)
Definition page_within_limit_always : Prop :=
  forall (w : dbstate) (collection : string) (p : Document -> bool)
         (limit offset : Z) (sort : string) (slot : nat)
         (total : Z) (st : Adapter.St dbstate),
    0 <= limit < 2 ^ 64 ->
    Adapter.FindMany storage tt collection (AFilter p) limit offset sort (ADest slot)
      (Eff.start w) = ((total, None), st) ->
    Z.of_nat (List.length (slots (Eff.world st) slot)) <= limit.

End Pages.

(* ===================================================================== *)
(** ** Vocabulary for statements about identifiers *)
(* ===================================================================== *)

Module HexCase.
Import Hex.

(** An upper-case ASCII letter becomes its lower-case letter, every other
    byte stays. *)
Definition lower_byte (c : byte) : byte :=
  let v := byte_val c in
  if (65 <=? v) && (v <=? 90) then byte_of_val (v + 32) else c.

Definition lower (s : string) : string := string_of (map lower_byte (bytes_of s)).

(** Twenty-four zeros, the text of the zero identifier. *)
Definition zeros24 : string := "000000000000000000000000".

End HexCase.

(* ===================================================================== *)
(** ** A decorator as the upstream of a decorator *)
(* ===================================================================== *)

Module Stack.
Import GoErr Eff Int Retrying Runs.

Section Stacking.
Variables (Ctx Any W : Type).

(** [*RetryingStorage] as a StorageReaderWriter value: its methods, working
    on the state of its own runs.  A transaction body is taken as a function
    of the upstream's state, as RunInTransaction has it: it is run from that
    state and its effect there is kept. *)
Definition as_upstream (s : RetryingStorage Ctx Any W)
  : Contract.StorageReaderWriter Ctx Any (Env event W unit) := {|
  Contract.FindOne := FindOne s;
  Contract.FindAll := FindAll s;
  Contract.FindMany := FindMany s;
  Contract.RunInTransaction := fun ctx fn =>
    RunInTransaction s ctx
      (fun c w => let '(r, st) := fn c (start w) in (r, world st));
  Contract.Insert := Insert s;
  Contract.Update := Update s;
  Contract.Upsert := Upsert s;
  Contract.Delete := Delete s;
  Contract.DeleteMany := DeleteMany s;
  Contract.GetDatabaseName := GetDatabaseName s
|}.

(** [NewRetryingStorage(NewRetryingStorage(upstream, logger), logger)] *)
Definition twice (s : RetryingStorage Ctx Any W)
  : RetryingStorage Ctx Any (Env event W unit) :=
  NewRetryingStorage _ _ _ (as_upstream s).

End Stacking.

Arguments as_upstream {Ctx Any W}.
Arguments twice {Ctx Any W}.

(** What [retry] returns when it gives up on [e]. *)
Definition exceeded (e : error) : error :=
  withStack (withMessage e "exceeded retry limit").

(** Transient by a category that is asked along the whole [Unwrap] chain:
    every category but the pool error, which is asked of the error's own
    type only. *)
Definition chain_transient (e : error) : bool :=
  negb (is_cancellation e)
  && (errors_Is e mongo_ErrClientDisconnected
      || mongo_IsTimeout e
      || mongo_IsNetworkError e
      || errors_As_WaitQueueTimeoutError e).

(** The attempt numbers of the log lines of a trace, in order. *)
Fixpoint log_attempts (tr : list event) : list Z :=
  match tr with
  | [] => []
  | Info _ attempt _ :: rest => attempt :: log_attempts rest
  | _ :: rest => log_attempts rest
  end.

(** [k], [k + 1], ...: [n] numbers. *)
Fixpoint count_from (k : Z) (n : nat) : list Z :=
  match n with
  | O => []
  | S n' => k :: count_from (k + 1) n'
  end.

(** Rows of ten failed attempts: nine and the tenth. *)
Definition rows : Type := list (list (Z * error) * (Z * error)).

Definition flatten (b : rows) : list (Z * error) :=
  flat_map (fun row => fst row ++ [snd row]) b.

(** What the inner decorator returns for each row it gives up on. *)
Definition given_up (b : rows) : list (Z * error) :=
  map (fun row => (fst (snd row), exceeded (snd (snd row)))) b.

End Stack.

(* ===================================================================== *)
(** ** The other methods of Storage *)
(* ===================================================================== *)

Module DriverOps.
Import GoErr Eff.

(** mongo.UpdateResult and mongo.DeleteResult, the counts. *)
Record UpdateResult : Type := mkUpdateResult {
  MatchedCount : Z;
  ModifiedCount : Z;
  UpsertedCount : Z
}.

Record DeleteResult : Type := mkDeleteResult {
  DeletedCount : Z
}.

(** What a write returns: a result and no error, or an error, with which
    the driver may or may not hand back a result. *)
Inductive outcome (R : Type) : Type :=
| Ok (r : R)
| Failed (partial : option R) (e : error).
Arguments Ok {R}.
Arguments Failed {R}.

Section Interface.
Variables (Ctx Any W SingleResult : Type).

(** The collection operations behind FindOne and the writes.  [upsert] is
    [options.Update().SetUpsert(true)] given or not; [bson_M_id] builds
    [bson.M{"_id": docID}]. *)
Record Collections : Type := {
  Name : string;
  FindOne : Ctx -> string -> Any -> M W SingleResult;
  Decode : SingleResult -> Any -> M W (option error);
  InsertOne : Ctx -> string -> Any -> M W (option error);
  UpdateOne : Ctx -> string -> Any -> Any -> bool -> M W (outcome UpdateResult);
  DeleteOne : Ctx -> string -> Any -> M W (outcome DeleteResult);
  DeleteMany : Ctx -> string -> Any -> M W (outcome DeleteResult);
  bson_M_id : Hex.primitive_ObjectID -> Any
}.
End Interface.

Arguments Name {Ctx Any W SingleResult}.
Arguments FindOne {Ctx Any W SingleResult}.
Arguments Decode {Ctx Any W SingleResult}.
Arguments InsertOne {Ctx Any W SingleResult}.
Arguments UpdateOne {Ctx Any W SingleResult}.
Arguments DeleteOne {Ctx Any W SingleResult}.
Arguments DeleteMany {Ctx Any W SingleResult}.
Arguments bson_M_id {Ctx Any W SingleResult}.

End DriverOps.

Module AdapterOps.
Import GoErr Eff Int Driver DriverOps.
Local Open Scope eff_scope.

Section Storage.
Variables (Ctx Any W Cursor Session SingleResult : Type).
Variable s : Adapter.Storage Ctx Any W Cursor Session.
Variable ops : Collections Ctx Any W SingleResult.

Definition GetDatabaseName : string := Name ops.

(** FindOne: the single result is decoded into [dest]. *)
Definition FindOne (ctx : Ctx) (collection : string) (filter dest : Any)
  : M W (option error) :=
  r <- DriverOps.FindOne ops ctx collection filter ;;
  Decode ops r dest.

(** FindAll: a Find without options, then every document into [dest]. *)
Definition FindAll (ctx : Ctx) (collection : string) (filter dest : Any)
  : M (Adapter.St W) (option error) :=
  r <- call (Find_ collection options_Find)
         (Find (Adapter.database s) ctx collection filter options_Find) ;;
  match r with
  | inr err => ret (Some err)
  | inl cursor => call All_ (All (Adapter.database s) cursor ctx dest)
  end.

Definition Insert (ctx : Ctx) (collection : string) (document : Any)
  : M W (option error) :=
  InsertOne ops ctx collection document.

Definition Update (ctx : Ctx) (collection : string) (docID : Hex.primitive_ObjectID)
    (update : Any) : M W (Z * option error) :=
  r <- UpdateOne ops ctx collection (bson_M_id ops docID) update false ;;
  match r with
  | Failed _ err => ret (0, Some err)
  | Ok result => ret (ModifiedCount result, None)
  end.

Definition Upsert (ctx : Ctx) (collection : string) (docID update : Any)
  : M W (Z * option error) :=
  r <- UpdateOne ops ctx collection docID update true ;;
  match r with
  | Failed _ err => ret (0, Some err)
  | Ok result => ret (UpsertedCount result, None)
  end.

Definition Delete (ctx : Ctx) (collection : string) (docID : Hex.primitive_ObjectID)
  : M W (Z * option error) :=
  r <- DeleteOne ops ctx collection (bson_M_id ops docID) ;;
  match r with
  | Failed _ err => ret (0, Some err)
  | Ok result => ret (DeletedCount result, None)
  end.

Definition DeleteMany (ctx : Ctx) (collection : string) (filter : Any)
  : M W (Z * option error) :=
  r <- DriverOps.DeleteMany ops ctx collection filter ;;
  match r with
  | Failed _ err => ret (0, Some err)
  | Ok result => ret (DeletedCount result, None)
  end.

End Storage.

Arguments FindOne {Ctx Any W SingleResult}.
Arguments FindAll {Ctx Any W Cursor Session}.
Arguments Insert {Ctx Any W SingleResult}.
Arguments Update {Ctx Any W SingleResult}.
Arguments Upsert {Ctx Any W SingleResult}.
Arguments Delete {Ctx Any W SingleResult}.
Arguments DeleteMany {Ctx Any W SingleResult}.

End AdapterOps.

(** More vocabulary for statements about Storage. *)
Module StorageRuns.
Import GoErr Eff Int Driver DriverOps.

Definition driver_failed {R W : Type} (o : outcome R * W) : Prop :=
  match fst o with
  | Failed _ _ => True
  | Ok _ => False
  end.

(** What a write method returns, [r], against what the driver returned to
    it, [o]: no count next to an error, an error exactly when the driver
    gave one, and the state the driver left. *)
Definition sound_report {R W : Type} (o : outcome R * W)
    (r : (Z * option error) * W) : Prop :=
  (snd (fst r) <> None -> fst (fst r) = 0) /\
  (snd (fst r) <> None <-> driver_failed o) /\
  snd r = snd o.

(** [int64(v)] of a [uint64]: the value itself below 2^63, and from there
    on the value less 2^64, a negative number. *)
Definition as_int64 (v : Z) : Z := if v <? 2 ^ 63 then v else v - 2 ^ 64.

(** The options FindMany builds. *)
Definition find_options (limit offset : Z) (sort : string) : FindOptions :=
  mkFindOptions (Some (as_int64 limit)) (Some (as_int64 offset)) (Pages.sort_option sort).

End StorageRuns.

(* ===================================================================== *)
(** ** Facts: identifier conversion *)
(* ===================================================================== *)

Module HexFacts.
Import Hex.

Lemma digit_iff_table (c : byte) :
  is_hex_digit c = negb (15 <? reverseHexTable c).
Proof. destruct c; reflexivity. Qed.

(** One byte through [Encode] and back through the decoding step. *)
Lemma nibbles_roundtrip (v : byte) :
  let hi := hextable_at (Z.shiftr (byte_val v) 4) in
  let lo := hextable_at (Z.land (byte_val v) 15) in
  (15 <? reverseHexTable hi) = false /\
  (15 <? reverseHexTable lo) = false /\
  byte_of_val (Z.lor (Z.shiftl (reverseHexTable hi) 4) (reverseHexTable lo)) = v.
Proof. destruct v; vm_compute; repeat split. Qed.

Lemma Decode_Encode (id : list byte) : Decode (Encode id) = (id, None).
Proof.
  induction id as [|v rest IH]; [reflexivity|].
  destruct (nibbles_roundtrip v) as (Hhi & Hlo & Hv).
  cbn [Encode Decode]. rewrite Hhi, Hlo, IH, Hv. reflexivity.
Qed.

Lemma length_Encode (id : list byte) :
  List.length (Encode id) = (2 * List.length id)%nat.
Proof. induction id; cbn [Encode List.length]; lia. Qed.

Lemma length_string_of (l : list byte) :
  String.length (string_of l) = List.length l.
Proof.
  unfold string_of. induction l; cbn; [reflexivity|]. now f_equal.
Qed.

Lemma bytes_of_string_of (l : list byte) : bytes_of (string_of l) = l.
Proof. apply list_byte_of_string_of_list_byte. Qed.

Lemma length_bytes_of (s : string) : List.length (bytes_of s) = String.length s.
Proof.
  unfold bytes_of. induction s; cbn; [reflexivity|]. now f_equal.
Qed.

(** A decoding without error has met digits only, and wrote one byte for
    every two. *)
Lemma Decode_ok_digits (n : nat) : forall src out,
  (List.length src <= n)%nat ->
  Decode src = (out, None) ->
  forallb is_hex_digit src = true /\ (2 * List.length out = List.length src)%nat.
Proof.
  induction n as [|n IH]; intros src out Hlen Hdec.
  - destruct src; [|cbn in Hlen; lia]. cbn in Hdec. inversion Hdec. now split.
  - destruct src as [|p [|q rest]].
    + cbn in Hdec. inversion Hdec. now split.
    + cbn in Hdec. destruct (15 <? reverseHexTable p); discriminate.
    + cbn [Decode] in Hdec.
      destruct (15 <? reverseHexTable p) eqn:Hp; [discriminate|].
      destruct (15 <? reverseHexTable q) eqn:Hq; [discriminate|].
      destruct (Decode rest) as [out' err'] eqn:Hrest.
      assert (err' = None) by congruence. subst err'.
      assert (Hout : out = byte_of_val
                (Z.lor (Z.shiftl (reverseHexTable p) 4) (reverseHexTable q)) :: out')
        by congruence.
      subst out.
      destruct (IH rest out') as [Hd Hl]; [cbn in Hlen; lia | exact Hrest |].
      cbn [forallb List.length].
      rewrite !digit_iff_table, Hp, Hq, Hd. split; [reflexivity | lia].
Qed.

Lemma length_fill12 (written : list byte) : List.length (fill12 written) = 12%nat.
Proof.
  unfold fill12, NilObjectID.
  rewrite length_firstn, length_app, repeat_length. lia.
Qed.

Lemma fill12_full (id : list byte) : List.length id = 12%nat -> fill12 id = id.
Proof.
  intros H. unfold fill12.
  rewrite firstn_app, <- H, firstn_all, Nat.sub_diag, firstn_O.
  apply app_nil_r.
Qed.

(** C9: whatever the string, the conversion [ObjectID] gives 12 bytes, and
    a string that is not 24 hexadecimal digits gives the zero identifier,
    with no error to be seen. *)
Theorem ObjectID_total_zero_on_invalid (s : string) :
  List.length (ObjectID s) = 12%nat /\
  (is_hex24 s = false -> ObjectID s = NilObjectID).
Proof.
  unfold ObjectID, ObjectIDFromHex, is_hex24.
  destruct (Nat.eqb (String.length s) 24) eqn:Hlen; cbn [negb andb].
  - destruct (Decode (bytes_of s)) as [written [e|]] eqn:Hdec.
    + split; [reflexivity | reflexivity].
    + split; [apply length_fill12|].
      intros Hbad.
      destruct (Decode_ok_digits _ _ _ (le_n _) Hdec) as [Hd _].
      congruence.
  - split; reflexivity.
Qed.

Lemma ObjectID_total_zero_on_invalid_witness :
  is_hex24 "not-an-object-id" = false /\
  ObjectID "not-an-object-id" = NilObjectID.
Proof.
  split; [reflexivity|].
  apply (ObjectID_total_zero_on_invalid "not-an-object-id"). reflexivity.
Defined.

(** C10: an identifier of 12 bytes, written in hexadecimal and converted
    back by [ObjectID], is the identifier again. *)
Theorem ObjectID_Hex_roundtrip (id : primitive_ObjectID) :
  List.length id = 12%nat -> ObjectID (ObjectID_Hex id) = id.
Proof.
  intros Hlen.
  unfold ObjectID, ObjectIDFromHex, ObjectID_Hex.
  rewrite length_string_of, length_Encode, Hlen, bytes_of_string_of, Decode_Encode.
  cbn [Nat.eqb negb Nat.mul Nat.add].
  now apply fill12_full.
Qed.

Lemma ObjectID_Hex_roundtrip_witness :
  let id := [x50; x7f; x1f; x77; xbc; xf8; x6c; xd7; x99; x43; x90; x11] in
  ObjectID_Hex id = "507f1f77bcf86cd799439011"%string /\
  ObjectID (ObjectID_Hex id) = id.
Proof.
  split; [reflexivity|].
  apply (ObjectID_Hex_roundtrip [x50; x7f; x1f; x77; xbc; xf8; x6c; xd7; x99; x43; x90; x11]).
  reflexivity.
Defined.

End HexFacts.

(* ===================================================================== *)
(** ** Facts: the retry loop *)
(* ===================================================================== *)

Module RetryFacts.
Import GoErr Eff Int Retrying Runs.

Lemma backoff_linear (k : Z) : 1 <= k <= 10 -> backoff k = 10 * k * Millisecond.
Proof.
  intros Hk. unfold backoff, mul_Duration, wrap_int64, Millisecond.
  rewrite (Z.mod_small (k + 2 ^ 63)) by lia.
  replace (k + 2 ^ 63 - 2 ^ 63) with k by lia.
  rewrite (Z.mod_small (10 * k + 2 ^ 63)) by lia.
  replace (10 * k + 2 ^ 63 - 2 ^ 63) with (10 * k) by lia.
  rewrite Z.mod_small by lia. lia.
Qed.

Lemma gtb_false (a b : Z) : a <= b -> (a >? b) = false.
Proof. intros H. rewrite Z.gtb_ltb. apply Z.ltb_ge. exact H. Qed.

(** The loop body, read through [transient] and [retry_message]: one
    pass either returns or goes round again with the next attempt number. *)
Lemma retry_loop_unfold (W L : Type) (fn : M (Env event W L) (option error))
    (err : option error) (attempt : Z) (st : Env event W L) :
  retry_loop fn err attempt st =
  if attempt >? maxRetries then (errors_Wrap err "exceeded retry limit", st)
  else
    let '(r, st1) := fn st in
    match r with
    | None => (None, st1)
    | Some e =>
        if transient e then
          retry_loop fn (Some e) (attempt + 1)
            (mkEnv (world st1) (locals st1)
               (trace st1 ++ [Info (retry_message e) attempt (Error e);
                              Sleep (backoff attempt)]))
        else (Some e, st1)
    end.
Proof.
  rewrite retry_loop_equation_1.
  change (attempt >? maxRetries) with (proj1_sig (inspect (attempt >? maxRetries))) at 2.
  generalize (inspect (attempt >? maxRetries)) as x.
  intros [[|] Hx]; cbn [proj1_sig]; [reflexivity|].
  cbn [retry_loop_unfold_clause_1]. unfold bind.
  destruct (fn st) as [[e|] st1]; [|reflexivity].
  unfold transient, is_cancellation, transient_category, retry_message.
  destruct (errors_Is e context_Canceled); [reflexivity|].
  unfold logger_Info, time_Sleep, emit, modify, ret.
  destruct (errors_Is e mongo_ErrClientDisconnected);
    [cbn; rewrite <- app_assoc; reflexivity|].
  destruct (mongo_IsTimeout e); [cbn; rewrite <- app_assoc; reflexivity|].
  destruct (mongo_IsNetworkError e); [cbn; rewrite <- app_assoc; reflexivity|].
  destruct (is_RetryablePoolError e); [cbn; rewrite <- app_assoc; reflexivity|].
  destruct (errors_As_WaitQueueTimeoutError e);
    [cbn; rewrite <- app_assoc; reflexivity|].
  reflexivity.
Qed.

Lemma retry_loop_exhausted (W L : Type) (fn : M (Env event W L) (option error))
    (err : option error) (attempt : Z) (st : Env event W L) :
  maxRetries < attempt ->
  retry_loop fn err attempt st = (errors_Wrap err "exceeded retry limit", st).
Proof.
  intros H. rewrite retry_loop_unfold.
  replace (attempt >? maxRetries) with true; [reflexivity|].
  symmetry. apply Z.gtb_lt. lia.
Qed.

Lemma calls_app (a b : list event) : calls (a ++ b) = (calls a + calls b)%nat.
Proof. unfold calls. now rewrite filter_app, length_app. Qed.

Lemma calls_retries (m : method) (errs : list error) : forall k,
  calls (retries m k errs) = List.length errs.
Proof.
  induction errs as [|e rest IH]; intros k; [reflexivity|].
  cbn [retries]. rewrite calls_app, IH. reflexivity.
Qed.

Lemma sleeps_app (a b : list event) : sleeps (a ++ b) = sleeps a ++ sleeps b.
Proof.
  induction a as [|ev a IH]; [reflexivity|].
  destruct ev; cbn [app sleeps]; now rewrite IH.
Qed.

Lemma sleeps_retries (m : method) (errs : list error) : forall k,
  sleeps (retries m k errs) = linear_backoffs k (List.length errs).
Proof.
  induction errs as [|e rest IH]; intros k; [reflexivity|].
  cbn [retries]. rewrite sleeps_app, IH. reflexivity.
Qed.

Lemma length_linear_backoffs (n : nat) : forall k,
  List.length (linear_backoffs k n) = n.
Proof. induction n; intros k; cbn; auto. Qed.

(** [n + 1] calls are [n] calls and one more. *)
Lemma attempts_snoc (W R : Type) (op : M W R) (xs : list R) (y : R) :
  forall w w2,
  attempts op (S (List.length xs)) w = (xs ++ [y], w2) ->
  exists w1, attempts op (List.length xs) w = (xs, w1) /\ op w1 = (y, w2).
Proof.
  induction xs as [|x xs IH]; intros w w2 H.
  - cbn in H. destruct (op w) as [r w1] eqn:Hop.
    injection H as -> ->. exists w. split; [reflexivity | exact Hop].
  - cbn [List.length] in *.
    change (attempts op (S (S (List.length xs))) w)
      with (let '(r, w1) := op w in
            let '(rs, w2) := attempts op (S (List.length xs)) w1 in (r :: rs, w2)) in H.
    destruct (op w) as [r w1] eqn:Hop.
    destruct (attempts op (S (List.length xs)) w1) as [rs w3] eqn:Hrest.
    cbn [app] in H. injection H as -> -> ->.
    destruct (IH _ _ Hrest) as (w4 & Hatt & Hlast).
    exists w4. split; [|exact Hlast].
    cbn [attempts]. now rewrite Hop, Hatt.
Qed.

Section Loop.
Variables (W L X : Type).
(** A closure that calls method [m] of the upstream once, keeps part [X] of
    what it returns in its captured variables, and returns the error. *)
Variable fn : M (Env event W L) (option error).
Variable m : method.
Variable op : M W (X * option error).
Variable put : X -> L -> L.
Hypothesis fn_calls_op : forall st,
  fn st = let '((x, err), w') := op (world st) in
          (err, mkEnv w' (put x (locals st)) (trace st ++ [Upstream m])).

Lemma loop_settles (err : option error) (attempt : Z) (st : Env event W L)
    (t : X) (r : option error) (w2 : W) :
  attempt <= maxRetries ->
  op (world st) = ((t, r), w2) ->
  settles r = true ->
  retry_loop fn err attempt st =
  (r, mkEnv w2 (put t (locals st)) (trace st ++ [Upstream m])).
Proof.
  intros Hle Hop Hr. rewrite retry_loop_unfold.
  replace (attempt >? maxRetries) with false
    by (symmetry; apply gtb_false; lia).
  rewrite fn_calls_op, Hop.
  destruct r as [e|]; [|reflexivity].
  cbn [settles] in Hr. apply negb_true_iff in Hr. now rewrite Hr.
Qed.

Lemma loop_goes_round (err : option error) (attempt : Z) (st : Env event W L)
    (t : X) (e : error) (w1 : W) :
  1 <= attempt <= maxRetries ->
  op (world st) = ((t, Some e), w1) ->
  transient e = true ->
  retry_loop fn err attempt st =
  retry_loop fn (Some e) (attempt + 1)
    (mkEnv w1 (put t (locals st)) (trace st ++ retried m attempt e)).
Proof.
  intros Hle Hop He. rewrite retry_loop_unfold.
  replace (attempt >? maxRetries) with false
    by (symmetry; apply gtb_false; lia).
  rewrite fn_calls_op, Hop, He. cbn [world locals trace].
  rewrite backoff_linear by (unfold maxRetries in Hle; lia).
  unfold retried. now rewrite <- app_assoc.
Qed.

(** A row of transient failures takes the loop from one attempt number to
    the one after the row. *)
Lemma loop_retries (rs : list (X * error)) : forall err attempt st w',
  1 <= attempt ->
  attempt + Z.of_nat (List.length rs) <= maxRetries + 1 ->
  attempts op (List.length rs) (world st)
    = (map (fun r => (fst r, Some (snd r))) rs, w') ->
  Forall (fun r => transient (snd r) = true) rs ->
  retry_loop fn err attempt st =
  retry_loop fn (fold_left (fun _ r => Some (snd r)) rs err)
    (attempt + Z.of_nat (List.length rs))
    (mkEnv w' (fold_left (fun l r => put (fst r) l) rs (locals st))
       (trace st ++ retries m attempt (map snd rs))).
Proof.
  induction rs as [|[t e] rest IH]; intros err attempt st w' H1 Hn Hatt Htr.
  - cbn in Hatt. injection Hatt as <-. cbn.
    rewrite Z.add_0_r, app_nil_r. now destruct st.
  - cbn [List.length attempts map fst snd] in Hatt.
    destruct (op (world st)) as [r w1] eqn:Hop.
    destruct (attempts op (List.length rest) w1) as [rs' w2] eqn:Hrest.
    injection Hatt as Hr Hrs' Hw. subst r rs' w2.
    inversion Htr as [|? ? He Hrest_tr]; subst. cbn [snd] in He.
    cbn [List.length] in Hn. rewrite Nat2Z.inj_succ in Hn.
    rewrite (loop_goes_round err attempt st t e w1);
      [| unfold maxRetries in *; lia | exact Hop | exact He].
    rewrite (IH (Some e) (attempt + 1) _ w'); [| lia | lia | exact Hrest | exact Hrest_tr].
    cbn [world locals trace fold_left map retries List.length fst snd].
    rewrite Nat2Z.inj_succ, <- app_assoc.
    f_equal. lia.
Qed.

(** Ten transient failures in a row: the loop gives up. *)
Lemma loop_gives_up (front : list (X * error)) (r10 : X * error)
    (st : Env event W L) (w' : W) :
  List.length front = 9%nat ->
  attempts op 10 (world st)
    = (map (fun r => (fst r, Some (snd r))) (front ++ [r10]), w') ->
  Forall (fun r => transient (snd r) = true) (front ++ [r10]) ->
  retry fn st =
  (errors_Wrap (Some (snd r10)) "exceeded retry limit",
   mkEnv w' (put (fst r10) (fold_left (fun l r => put (fst r) l) front (locals st)))
     (trace st ++ retries m 1 (map snd (front ++ [r10])))).
Proof.
  intros Hlen Hatt Htr. unfold retry.
  assert (Hl : List.length (front ++ [r10]) = 10%nat)
    by (rewrite length_app, Hlen; reflexivity).
  rewrite (loop_retries (front ++ [r10]) None 1 st w');
    [| lia | rewrite Hl; unfold maxRetries; lia | rewrite Hl; exact Hatt | exact Htr].
  rewrite retry_loop_exhausted by (rewrite Hl; unfold maxRetries; lia).
  rewrite !fold_left_app. reflexivity.
Qed.

(** Fewer than ten transient failures, then an outcome that settles. *)
Lemma loop_settles_after (rs : list (X * error)) (st : Env event W L)
    (w1 : W) (t : X) (r : option error) (w2 : W) :
  (List.length rs < 10)%nat ->
  attempts op (List.length rs) (world st)
    = (map (fun r => (fst r, Some (snd r))) rs, w1) ->
  Forall (fun r => transient (snd r) = true) rs ->
  op w1 = ((t, r), w2) ->
  settles r = true ->
  retry fn st =
  (r, mkEnv w2 (put t (fold_left (fun l r => put (fst r) l) rs (locals st)))
        (trace st ++ retries m 1 (map snd rs) ++ [Upstream m])).
Proof.
  intros Hlen Hatt Htr Hop Hr. unfold retry.
  rewrite (loop_retries rs None 1 st w1);
    [| lia | unfold maxRetries; lia | exact Hatt | exact Htr].
  rewrite (loop_settles _ _ _ t r w2);
    [| unfold maxRetries; lia | exact Hop | exact Hr].
  cbn [world locals trace]. now rewrite <- app_assoc.
Qed.

(** The loop adds to the trace and takes nothing away. *)
Lemma loop_extends (k : nat) : forall err attempt st,
  (remaining attempt <= k)%nat ->
  exists tail, trace (snd (retry_loop fn err attempt st)) = trace st ++ tail.
Proof.
  induction k as [|k IH]; intros err attempt st Hk.
  - rewrite retry_loop_exhausted by (unfold remaining, maxRetries in *; lia).
    exists []. cbn. now rewrite app_nil_r.
  - destruct (Z_lt_le_dec maxRetries attempt) as [Hgt|Hle].
    + rewrite retry_loop_exhausted by exact Hgt.
      exists []. cbn. now rewrite app_nil_r.
    + rewrite retry_loop_unfold, (gtb_false _ _ Hle), fn_calls_op.
      destruct (op (world st)) as [[t r] w1].
      destruct r as [e|]; [|eexists; reflexivity].
      destruct (transient e); [|eexists; reflexivity].
      cbn [world locals trace].
      match goal with
      | |- context [retry_loop fn ?e' ?a' ?st'] =>
          destruct (IH e' a' st') as [tail Htail];
            [unfold remaining, maxRetries in *; lia|]
      end.
      rewrite Htail. cbn [trace]. rewrite <- !app_assoc. eexists; reflexivity.
Qed.

(** After [n] transient failures in a row the first [n] sleeps of the run
    are 10 ms, 20 ms, ..., whatever comes after. *)
Lemma loop_sleeps (rs : list (X * error)) (st : Env event W L) (w1 : W) :
  (List.length rs <= 10)%nat ->
  attempts op (List.length rs) (world st)
    = (map (fun r => (fst r, Some (snd r))) rs, w1) ->
  Forall (fun r => transient (snd r) = true) rs ->
  exists tail,
    trace (snd (retry fn st)) = trace st ++ retries m 1 (map snd rs) ++ tail.
Proof.
  intros Hlen Hatt Htr. unfold retry.
  rewrite (loop_retries rs None 1 st w1);
    [| lia | unfold maxRetries; lia | exact Hatt | exact Htr].
  match goal with
  | |- context [retry_loop fn ?e' ?a' ?st'] =>
      destruct (loop_extends (remaining a') e' a' st' (le_n _)) as [tail Htail]
  end.
  rewrite Htail. cbn [trace]. rewrite <- app_assoc. eexists; reflexivity.
Qed.

End Loop.

Lemma attempts_no_count (W : Type) (op : M W (option error)) (n : nat) :
  forall w rs w', attempts (no_count op) n w = (rs, w') ->
  Forall (fun r => fst r = 0) rs.
Proof.
  induction n as [|n IH]; intros w rs w' H; cbn [attempts] in H.
  - injection H as <- _. constructor.
  - unfold no_count at 1 in H. destruct (op w) as [e w1].
    destruct (attempts (no_count op) n w1) as [rs1 w2] eqn:Hrest.
    injection H as <- _. constructor; [reflexivity | eauto].
Qed.

Section Reads.
Variables (Ctx Any W : Type).
Variable s : RetryingStorage Ctx Any W.

(** The closure of FindOne and FindAll, seen as one that keeps nothing. *)
Lemma plain_closure (m : method) (op : M W (option error)) (st : Env event W unit) :
  upcall W m op st =
  let '((x, err), w') := no_count op (world st) in
  (err, mkEnv w' ((fun (_ : Z) (l : unit) => l) x (locals st)) (trace st ++ [Upstream m])).
Proof. unfold upcall, call, no_count. now destruct (op (world st)). Qed.

(** The closure of FindMany keeps the count. *)
Lemma counting_closure (op : M W (Z * option error)) (st : Env event W Z) :
  bind (upcall W mFindMany op)
       (fun x => let '(total, err) := x in bind (set_local total) (fun _ => ret err)) st =
  let '((x, err), w') := op (world st) in
  (err, mkEnv w' ((fun (t : Z) (_ : Z) => t) x (locals st)) (trace st ++ [Upstream mFindMany])).
Proof.
  unfold bind, upcall, call, set_local, modify, ret.
  now destruct (op (world st)) as [[t e] w1].
Qed.

(** A read that meets ten transient failures. *)
Lemma read_gives_up (c : read_call Ctx Any) (w : W)
    (front : list (Z * error)) (r10 : Z * error) (w' : W) :
  List.length front = 9%nat ->
  attempts (upstream_read (upstream s) c) 10 w = (map failed (front ++ [r10]), w') ->
  Forall (fun r => transient (snd r) = true) (front ++ [r10]) ->
  decorated_read s c (start w) =
  ((fst r10, errors_Wrap (Some (snd r10)) "exceeded retry limit"),
   mkEnv w' tt (retries (method_of c) 1 (map snd (front ++ [r10])))).
Proof.
  intros Hlen Hatt Htr.
  destruct c as [ctx col f d | ctx col f d | ctx col f lim off srt d];
    cbn [decorated_read upstream_read method_of] in *.
  - unfold no_count at 1, FindOne.
    rewrite (loop_gives_up _ _ _ _ _ _ _ (plain_closure mFindOne _) front r10 (start w) w'
               Hlen Hatt Htr).
    apply attempts_no_count in Hatt.
    rewrite map_app, Forall_app in Hatt. destruct Hatt as [_ H10].
    inversion H10 as [|? ? H0 _]; subst. cbn in H0. rewrite H0.
    cbn. f_equal. f_equal. clear. induction front; cbn; auto.
  - unfold no_count at 1, FindAll.
    rewrite (loop_gives_up _ _ _ _ _ _ _ (plain_closure mFindAll _) front r10 (start w) w'
               Hlen Hatt Htr).
    apply attempts_no_count in Hatt.
    rewrite map_app, Forall_app in Hatt. destruct Hatt as [_ H10].
    inversion H10 as [|? ? H0 _]; subst. cbn in H0. rewrite H0.
    cbn. f_equal. f_equal. clear. induction front; cbn; auto.
  - unfold FindMany, with_local. unfold bind at 1.
    unfold start; cbn [world trace].
    rewrite (loop_gives_up _ _ _ _ _ _ _ (counting_closure _) front r10 (mkEnv w 0 []) w'
               Hlen Hatt Htr).
    reflexivity.
Qed.

(** A read that meets fewer than ten transient failures and then an
    outcome that settles. *)
Lemma read_settles (c : read_call Ctx Any) (w : W)
    (rs : list (Z * error)) (w1 : W) (t : Z) (r : option error) (w2 : W) :
  (List.length rs < 10)%nat ->
  attempts (upstream_read (upstream s) c) (List.length rs) w = (map failed rs, w1) ->
  Forall (fun r => transient (snd r) = true) rs ->
  upstream_read (upstream s) c w1 = ((t, r), w2) ->
  settles r = true ->
  decorated_read s c (start w) =
  ((t, r), mkEnv w2 tt (retries (method_of c) 1 (map snd rs) ++ [Upstream (method_of c)])).
Proof.
  intros Hlen Hatt Htr Hop Hr.
  destruct c as [ctx col f d | ctx col f d | ctx col f lim off srt d];
    cbn [decorated_read upstream_read method_of] in *.
  - unfold no_count at 1, FindOne.
    rewrite (loop_settles_after _ _ _ _ _ _ _ (plain_closure mFindOne _) rs (start w) w1 t r w2
               Hlen Hatt Htr Hop Hr).
    unfold no_count in Hop. destruct (Contract.FindOne _ _ _ _ _ w1).
    injection Hop as <- _ _. cbn.
    now destruct (fold_left _ rs tt).
  - unfold no_count at 1, FindAll.
    rewrite (loop_settles_after _ _ _ _ _ _ _ (plain_closure mFindAll _) rs (start w) w1 t r w2
               Hlen Hatt Htr Hop Hr).
    unfold no_count in Hop. destruct (Contract.FindAll _ _ _ _ _ w1).
    injection Hop as <- _ _. cbn.
    now destruct (fold_left _ rs tt).
  - unfold FindMany, with_local. unfold bind at 1.
    unfold start; cbn [world trace].
    rewrite (loop_settles_after _ _ _ _ _ _ _ (counting_closure _) rs (mkEnv w 0 []) w1 t r w2
               Hlen Hatt Htr Hop Hr).
    reflexivity.
Qed.

(** The trace of a read after [n] transient failures in a row. *)
Lemma read_trace_after (c : read_call Ctx Any) (w : W)
    (rs : list (Z * error)) (w1 : W) :
  (List.length rs <= 10)%nat ->
  attempts (upstream_read (upstream s) c) (List.length rs) w = (map failed rs, w1) ->
  Forall (fun r => transient (snd r) = true) rs ->
  exists tail,
    trace (snd (decorated_read s c (start w)))
    = retries (method_of c) 1 (map snd rs) ++ tail.
Proof.
  intros Hlen Hatt Htr.
  destruct c as [ctx col f d | ctx col f d | ctx col f lim off srt d];
    cbn [decorated_read upstream_read method_of] in *.
  - destruct (loop_sleeps _ _ _ _ _ _ _ (plain_closure mFindOne _) rs (start w) w1
                Hlen Hatt Htr) as [tail Htail].
    exists tail. unfold no_count at 1, FindOne.
    destruct (retry _ (start w)) as [e st]. exact Htail.
  - destruct (loop_sleeps _ _ _ _ _ _ _ (plain_closure mFindAll _) rs (start w) w1
                Hlen Hatt Htr) as [tail Htail].
    exists tail. unfold no_count at 1, FindAll.
    destruct (retry _ (start w)) as [e st]. exact Htail.
  - destruct (loop_sleeps _ _ _ _ _ _ _ (counting_closure _) rs (mkEnv w 0 []) w1
                Hlen Hatt Htr) as [tail Htail].
    exists tail. unfold FindMany, with_local. unfold bind at 1.
    unfold start; cbn [world trace].
    destruct (retry _ (mkEnv w 0 [])) as [e st]. exact Htail.
Qed.

End Reads.

(** C1: a read through RetryingStorage whose upstream fails with a
    recognized transient error at each of 10 attempts in a row returns the
    10th error wrapped as "exceeded retry limit"; unwrapping the returned
    error gives the message layer and then the 10th error itself; the
    upstream was called 10 times and is left in the state after the 10th
    call. *)
Theorem read_gives_up_after_10 (Ctx Any W : Type) (s : RetryingStorage Ctx Any W)
    (c : read_call Ctx Any) (w : W)
    (front : list (Z * error)) (r10 : Z * error) (w' : W) :
  List.length front = 9%nat ->
  attempts (upstream_read (upstream s) c) 10 w = (map failed (front ++ [r10]), w') ->
  Forall (fun r => transient (snd r) = true) (front ++ [r10]) ->
  exists ret st,
    decorated_read s c (start w) = ((fst r10, Some ret), st) /\
    Some ret = errors_Wrap (Some (snd r10)) "exceeded retry limit" /\
    Error ret = ("exceeded retry limit: " ++ Error (snd r10))%string /\
    chain ret = withMessage (snd r10) "exceeded retry limit" :: snd r10 :: chain (snd r10) /\
    world st = w' /\
    calls (trace st) = 10%nat.
Proof.
  intros Hlen Hatt Htr.
  eexists; eexists. split; [apply (read_gives_up _ _ _ s c w front r10 w'); assumption|].
  cbn [world trace]. repeat split.
  rewrite calls_retries, length_map, length_app, Hlen. reflexivity.
Qed.

Lemma read_gives_up_after_10_witness :
  let e := Script.timeout "socket timeout" in
  let sc := repeat (0, Some e) 10 ++ [(4, None)] in
  exists st,
    decorated_read Script.retrying (CallFindOne tt "people" tt tt) (start sc)
    = ((0, Some (withStack (withMessage e "exceeded retry limit"))), st) /\
    world st = [(4, None)] /\ calls (trace st) = 10%nat.
Proof.
  destruct (read_gives_up_after_10 unit unit Script.script Script.retrying
              (CallFindOne tt "people" tt tt)
              (repeat (0, Some (Script.timeout "socket timeout")) 10 ++ [(4, None)])
              (repeat (0, Script.timeout "socket timeout") 9)
              (0, Script.timeout "socket timeout") [(4, None)])
    as (ret & st & Hrun & Hret & _ & _ & Hw & Hc).
  - reflexivity.
  - reflexivity.
  - repeat constructor.
  - exists st. injection Hret as ->. repeat split; assumption.
Defined.

(** C2: when the first [k - 1] attempts of a read fail with recognized
    transient errors and attempt [k <= 10] succeeds, the decorator returns
    that success (nil, and the count of that attempt) after [k] calls of the
    upstream, which is left in the state after call [k]. *)
Theorem read_succeeds_at_attempt_k (Ctx Any W : Type) (s : RetryingStorage Ctx Any W)
    (c : read_call Ctx Any) (w : W) (k : nat)
    (rs : list (Z * error)) (total : Z) (w' : W) :
  (1 <= k <= 10)%nat ->
  List.length rs = (k - 1)%nat ->
  attempts (upstream_read (upstream s) c) k w
    = (map failed rs ++ [(total, None)], w') ->
  Forall (fun r => transient (snd r) = true) rs ->
  exists st,
    decorated_read s c (start w) = ((total, None), st) /\
    world st = w' /\
    calls (trace st) = k.
Proof.
  intros Hk Hlen Hatt Htr.
  replace k with (S (List.length (map failed rs))) in Hatt
    by (rewrite length_map; lia).
  apply attempts_snoc in Hatt. destruct Hatt as (w1 & Hatt & Hlast).
  rewrite length_map in Hatt.
  eexists. split.
  - apply (read_settles _ _ _ s c w rs w1 total None w'); try assumption; [lia | reflexivity].
  - cbn [world trace]. split; [reflexivity|].
    rewrite calls_app, calls_retries, length_map. cbn. lia.
Qed.

Lemma read_succeeds_at_attempt_k_witness :
  let sc := [(0, Some (Script.timeout "t1")); (0, Some (Script.network "n2"));
             (15, None); (99, None)] in
  exists st,
    decorated_read Script.retrying (CallFindMany tt "people" tt 10 0 "-age" tt) (start sc)
    = ((15, None), st) /\
    world st = [(99, None)] /\ calls (trace st) = 3%nat.
Proof.
  apply (read_succeeds_at_attempt_k unit unit Script.script Script.retrying
           (CallFindMany tt "people" tt 10 0 "-age" tt)
           [(0, Some (Script.timeout "t1")); (0, Some (Script.network "n2"));
            (15, None); (99, None)]
           3 [(0, Script.timeout "t1"); (0, Script.network "n2")] 15 [(99, None)]).
  - lia.
  - reflexivity.
  - reflexivity.
  - repeat constructor.
Defined.

(** C3: when the first attempt of a read fails with an error that is no
    cancellation and answers to none of the transient categories, the
    decorator returns that very error, not wrapped, after one call of the
    upstream and without sleeping. *)
Theorem read_returns_unrecognized_error (Ctx Any W : Type)
    (s : RetryingStorage Ctx Any W) (c : read_call Ctx Any) (w : W)
    (total : Z) (e : error) (w' : W) :
  upstream_read (upstream s) c w = ((total, Some e), w') ->
  is_cancellation e = false ->
  transient_category e = false ->
  exists st,
    decorated_read s c (start w) = ((total, Some e), st) /\
    world st = w' /\
    calls (trace st) = 1%nat /\
    sleeps (trace st) = [].
Proof.
  intros Hop Hc Ht.
  eexists. split.
  - apply (read_settles _ _ _ s c w [] w total (Some e) w');
      [cbn; lia | reflexivity | constructor | exact Hop |].
    unfold settles, transient. now rewrite Ht, andb_false_r.
  - cbn. repeat split.
Qed.

Lemma read_returns_unrecognized_error_witness :
  exists st,
    decorated_read Script.retrying (CallFindOne tt "people" tt tt)
      (start [(0, Some Script.not_found); (0, None)])
    = ((0, Some Script.not_found), st) /\
    world st = [(0, None)] /\ calls (trace st) = 1%nat /\ sleeps (trace st) = [].
Proof.
  apply (read_returns_unrecognized_error unit unit Script.script Script.retrying
           (CallFindOne tt "people" tt tt)
           [(0, Some Script.not_found); (0, None)] 0 Script.not_found [(0, None)]);
    reflexivity.
Defined.

(** C4: when the first attempt of a read fails with a cancellation (an
    error matching context.Canceled), the decorator returns that error as it
    is after one call of the upstream and without sleeping, whether or not
    the error answers to a transient category too. *)
Theorem read_returns_cancellation (Ctx Any W : Type)
    (s : RetryingStorage Ctx Any W) (c : read_call Ctx Any) (w : W)
    (total : Z) (e : error) (w' : W) :
  upstream_read (upstream s) c w = ((total, Some e), w') ->
  is_cancellation e = true ->
  exists st,
    decorated_read s c (start w) = ((total, Some e), st) /\
    world st = w' /\
    calls (trace st) = 1%nat /\
    sleeps (trace st) = [].
Proof.
  intros Hop Hc.
  eexists. split.
  - apply (read_settles _ _ _ s c w [] w total (Some e) w');
      [cbn; lia | reflexivity | constructor | exact Hop |].
    unfold settles, transient. now rewrite Hc.
  - cbn. repeat split.
Qed.

Lemma read_returns_cancellation_witness :
  transient_category Script.canceled_network = true /\
  exists st,
    decorated_read Script.retrying (CallFindAll tt "people" tt tt)
      (start [(0, Some Script.canceled_network); (0, None)])
    = ((0, Some Script.canceled_network), st) /\
    world st = [(0, None)] /\ calls (trace st) = 1%nat /\ sleeps (trace st) = [].
Proof.
  split; [reflexivity|].
  apply (read_returns_cancellation unit unit Script.script Script.retrying
           (CallFindAll tt "people" tt tt)
           [(0, Some Script.canceled_network); (0, None)] 0
           Script.canceled_network [(0, None)]);
    reflexivity.
Defined.

(** C5: the five write methods and RunInTransaction of RetryingStorage are
    the upstream's: whatever the upstream returns, it is called once, and its
    result and state are handed on as they are. *)
Theorem writes_pass_through (Ctx Any W : Type) (s : RetryingStorage Ctx Any W)
    (ctx : Ctx) (collection : string) (document filter update docID : Any)
    (id : Hex.primitive_ObjectID) (fn : Ctx -> M W (option error)) :
  passes_through mInsert (Insert s ctx collection document)
    (Contract.Insert (upstream s) ctx collection document) /\
  passes_through mUpdate (Update s ctx collection id update)
    (Contract.Update (upstream s) ctx collection id update) /\
  passes_through mUpsert (Upsert s ctx collection docID update)
    (Contract.Upsert (upstream s) ctx collection docID update) /\
  passes_through mDelete (Delete s ctx collection id)
    (Contract.Delete (upstream s) ctx collection id) /\
  passes_through mDeleteMany (DeleteMany s ctx collection filter)
    (Contract.DeleteMany (upstream s) ctx collection filter) /\
  passes_through mRunInTransaction (RunInTransaction s ctx fn)
    (Contract.RunInTransaction (upstream s) ctx fn).
Proof.
  unfold passes_through, Insert, Update, Upsert, Delete, DeleteMany,
    RunInTransaction, upcall, call, start.
  repeat split; intros w; cbn [world locals trace app];
    match goal with |- context [let '(_, _) := ?x in _] => now destruct x end.
Qed.

(** Where attempt [n + 1] of a row of transient failures is in the trace. *)
Lemma retries_split (m : method) (errs : list error) : forall k n e,
  nth_error errs n = Some e ->
  retries m k errs =
    retries m k (firstn n errs) ++ retried m (k + Z.of_nat n) e
      ++ retries m (k + Z.of_nat n + 1) (skipn (S n) errs) /\
  List.length (firstn n errs) = n.
Proof.
  induction errs as [|x rest IH]; intros k n e Hn.
  - destruct n; discriminate Hn.
  - destruct n as [|n].
    + cbn in Hn. injection Hn as ->. cbn [firstn skipn retries app List.length].
      rewrite Z.add_0_r. split; reflexivity.
    + cbn [nth_error] in Hn. destruct (IH (k + 1) n e Hn) as [Hsplit Hlen].
      cbn [firstn skipn retries List.length]. rewrite Hsplit at 1.
      rewrite Nat2Z.inj_succ, <- !app_assoc.
      replace (k + 1 + Z.of_nat n) with (k + Z.succ (Z.of_nat n)) by lia.
      split; [reflexivity | now rewrite Hlen].
Qed.

(** C8: the sleep after the [n]-th transient failure of a read is 10 ms
    times [n].  After transient failures in a row, of whatever category, the
    trace of the run starts with, for each of them in turn, the call, its log
    line and the sleep; so the [n]-th call, when it fails so, is followed by
    the log line numbered [n] and a sleep of 10 ms times [n], before any
    further call.  The sleeps are 10 ms, 20 ms, ..., and when all 10 attempts
    fail the run is these 10 rounds and nothing else, 550 ms of sleep in
    all. *)
Theorem backoff_is_linear (Ctx Any W : Type) (s : RetryingStorage Ctx Any W)
    (c : read_call Ctx Any) (w : W) (rs : list (Z * error)) (w1 : W) :
  (List.length rs <= 10)%nat ->
  attempts (upstream_read (upstream s) c) (List.length rs) w = (map failed rs, w1) ->
  Forall (fun r => transient (snd r) = true) rs ->
  let tr := trace (snd (decorated_read s c (start w))) in
  let m := method_of c in
  (exists tail, tr = retries m 1 (map snd rs) ++ tail) /\
  (forall (n : nat) (e : error),
     nth_error (map snd rs) n = Some e ->
     exists before after,
       tr = before
            ++ [Upstream m;
                Info (retry_message e) (Z.of_nat n + 1) (Error e);
                Sleep (10 * (Z.of_nat n + 1) * Millisecond)]
            ++ after /\
       calls before = n /\
       sleeps before = linear_backoffs 1 n) /\
  firstn (List.length rs) (sleeps tr) = linear_backoffs 1 (List.length rs) /\
  (List.length rs = 10%nat ->
   tr = retries m 1 (map snd rs) /\
   sleeps tr = map (fun n => 10 * n * Millisecond) [1; 2; 3; 4; 5; 6; 7; 8; 9; 10] /\
   total_sleep tr = 550 * Millisecond).
Proof.
  intros Hlen Hatt Htr tr m.
  destruct (read_trace_after _ _ _ s c w rs w1 Hlen Hatt Htr) as [tail Htail].
  fold tr m in Htail.
  split; [now exists tail|]. split; [|split].
  - intros n e Hn.
    destruct (retries_split m (map snd rs) 1 n e Hn) as [Hsplit Hl].
    exists (retries m 1 (firstn n (map snd rs))),
           (retries m (1 + Z.of_nat n + 1) (skipn (S n) (map snd rs)) ++ tail).
    split; [|split].
    + rewrite Htail, Hsplit. unfold retried. rewrite <- !app_assoc.
      replace (1 + Z.of_nat n) with (Z.of_nat n + 1) by lia. reflexivity.
    + now rewrite calls_retries.
    + now rewrite sleeps_retries, Hl.
  - rewrite Htail, sleeps_app, sleeps_retries, length_map.
    rewrite <- (length_linear_backoffs (List.length rs) 1) at 1.
    now rewrite firstn_app, firstn_all, Nat.sub_diag, firstn_O, app_nil_r.
  - intros H10.
    destruct (rev rs) as [|r10 front'] eqn:Hrev.
    { apply (f_equal (@List.length _)) in Hrev. rewrite length_rev in Hrev.
      cbn in Hrev. lia. }
    assert (Hrs : rs = rev front' ++ [r10]).
    { rewrite <- (rev_involutive rs), Hrev. reflexivity. }
    assert (Hf : List.length (rev front') = 9%nat).
    { rewrite Hrs, length_app in H10. cbn in H10. lia. }
    rewrite H10 in Hatt. rewrite Hrs in Hatt, Htr.
    subst tr.
    rewrite (read_gives_up _ _ _ s c w (rev front') r10 w1 Hf Hatt Htr).
    cbn [snd trace]. unfold total_sleep. rewrite Hrs.
    rewrite sleeps_retries, length_map, length_app, Hf.
    repeat split.
Qed.

Lemma backoff_is_linear_witness :
  let e := Script.network "connection reset" in
  let sc := repeat (0, Some e) 10 in
  let tr := trace (snd (decorated_read Script.retrying
                          (CallFindOne tt "people" tt tt) (start sc))) in
  (exists before after,
     tr = before
          ++ [Upstream mFindOne;
              Info "retrying mongodb network error" 3 "connection reset";
              Sleep 30000000]
          ++ after /\
     calls before = 2%nat) /\
  sleeps tr = [10000000; 20000000; 30000000; 40000000; 50000000;
               60000000; 70000000; 80000000; 90000000; 100000000] /\
  total_sleep tr = 550000000.
Proof.
  destruct (backoff_is_linear unit unit Script.script Script.retrying
              (CallFindOne tt "people" tt tt)
              (repeat (0, Some (Script.network "connection reset")) 10)
              (repeat (0, Script.network "connection reset") 10) [])
    as (_ & Hnth & _ & Hall).
  - cbn. lia.
  - reflexivity.
  - repeat constructor.
  - split.
    + destruct (Hnth 2%nat (Script.network "connection reset") eq_refl)
        as (before & after & Htr & Hc & _).
      exists before, after. split; [exact Htr | exact Hc].
    + destruct (Hall eq_refl) as (_ & Hs & Ht). split; [exact Hs | exact Ht].
Defined.

End RetryFacts.

(* ===================================================================== *)
(** ** Facts: Storage *)
(* ===================================================================== *)

Module StorageFacts.
Import GoErr Eff Int Driver MemDB Txn Pages.

Lemma wrap_int64_small (z : Z) : 0 <= z < 2 ^ 63 -> wrap_int64 z = z.
Proof. intros H. unfold wrap_int64. rewrite Z.mod_small; lia. Qed.

Lemma wrap_int64_high (z : Z) : 2 ^ 63 <= z < 2 ^ 64 -> wrap_int64 z = z - 2 ^ 64.
Proof.
  intros H. unfold wrap_int64.
  replace (z + 2 ^ 63) with (z - 2 ^ 63 + 1 * 2 ^ 64) by lia.
  rewrite Z_mod_plus_full, Z.mod_small; lia.
Qed.

(** A [uint64] that is not negative as an [int64] is below 2^63. *)
Lemma wrap_int64_nonneg (z : Z) :
  0 <= z < 2 ^ 64 -> (wrap_int64 z <? 0) = false -> z < 2 ^ 63 /\ wrap_int64 z = z.
Proof.
  intros Hz Hn. apply Z.ltb_ge in Hn.
  destruct (Z_lt_le_dec z (2 ^ 63)) as [Hlt|Hge].
  - split; [exact Hlt | apply wrap_int64_small; lia].
  - rewrite wrap_int64_high in Hn by lia. lia.
Qed.

Lemma value_leb_total (a b : option Z) : value_leb a b = false -> value_leb b a = true.
Proof.
  destruct a as [x|], b as [y|]; cbn; try congruence.
  intros H. apply Z.leb_gt in H. apply Z.leb_le. lia.
Qed.

Lemma key_leb_total (k : string) (dir : Z) (a b : Document) :
  key_leb k dir a b = false -> key_leb k dir b a = true.
Proof. unfold key_leb. destruct (dir <? 0); apply value_leb_total. Qed.

Section Sorting.
Variable leb : Document -> Document -> bool.
Hypothesis leb_total : forall a b, leb a b = false -> leb b a = true.

Let R (a b : Document) : Prop := leb a b = true.

Lemma insert_by_perm (d : Document) (l : list Document) :
  Permutation (insert_by leb d l) (d :: l).
Proof.
  induction l as [|x l IH]; cbn; [reflexivity|].
  destruct (leb d x); [reflexivity|].
  rewrite IH. apply perm_swap.
Qed.

Lemma sort_by_perm (l : list Document) : Permutation (sort_by leb l) l.
Proof.
  induction l as [|d l IH]; cbn; [reflexivity|].
  rewrite insert_by_perm. now constructor.
Qed.

Lemma insert_by_HdRel (a d : Document) (l : list Document) :
  R a d -> HdRel R a l -> HdRel R a (insert_by leb d l).
Proof.
  intros Had Hl. destruct l as [|x l]; cbn; [now constructor|].
  destruct (leb d x); constructor; [exact Had|].
  now inversion Hl.
Qed.

Lemma insert_by_sorted (d : Document) (l : list Document) :
  Sorted R l -> Sorted R (insert_by leb d l).
Proof.
  induction l as [|x l IH]; intros Hs; cbn.
  - repeat constructor.
  - destruct (leb d x) eqn:Hdx.
    + constructor; [exact Hs | now constructor].
    + inversion Hs as [|? ? Hl Hhd]; subst.
      constructor; [now apply IH|].
      apply insert_by_HdRel; [now apply leb_total | exact Hhd].
Qed.

Lemma sort_by_sorted (l : list Document) : Sorted R (sort_by leb l).
Proof.
  induction l as [|d l IH]; cbn; [constructor | now apply insert_by_sorted].
Qed.

End Sorting.

Lemma Sorted_skipn (R : Document -> Document -> Prop) (n : nat) :
  forall l, Sorted R l -> Sorted R (skipn n l).
Proof.
  induction n as [|n IH]; intros l Hs; [exact Hs|].
  destruct l as [|x l]; [exact Hs|].
  cbn. apply IH. now inversion Hs.
Qed.

Lemma Sorted_firstn (R : Document -> Document -> Prop) (n : nat) :
  forall l, Sorted R l -> Sorted R (firstn n l).
Proof.
  induction n as [|n IH]; intros l Hs; [constructor|].
  destruct l as [|x l]; [constructor|].
  cbn. inversion Hs as [|? ? Hl Hhd]; subst.
  constructor; [now apply IH|].
  destruct l as [|y l]; [rewrite firstn_nil; constructor|].
  destruct n; cbn; constructor. now inversion Hhd.
Qed.

Lemma Sorted_apply_limit (R : Document -> Document -> Prop) (limit : option Z)
    (l : list Document) :
  Sorted R l -> Sorted R (apply_limit limit l).
Proof.
  intros Hs. unfold apply_limit. destruct limit as [n|]; [|exact Hs].
  destruct (n =? 0); [exact Hs | now apply Sorted_firstn].
Qed.

Lemma substring_all (s : string) : substring 0 (String.length s) s = s.
Proof. induction s as [|c s IH]; cbn; [reflexivity | now rewrite IH]. Qed.

Lemma slots_store (w : dbstate) (slot : nat) (docs : list Document) :
  slots (store w slot docs) slot = docs.
Proof. cbn. now rewrite Nat.eqb_refl. Qed.

(** A successful FindMany on the in-memory database, step by step. *)
Lemma FindMany_mem (w : dbstate) (collection : string) (p : Document -> bool)
    (limit offset : Z) (sort : string) (slot : nat)
    (total : Z) (st : Adapter.St dbstate) :
  Adapter.FindMany storage tt collection (AFilter p) limit offset sort (ADest slot)
    (start w) = ((total, None), st) ->
  let opts := mkFindOptions (Some (wrap_int64 limit)) (Some (wrap_int64 offset))
                            (sort_option sort) in
  total = wrap_uint64 (Z.of_nat (List.length (matching w collection p))) /\
  (wrap_int64 offset <? 0) = false /\
  bad_sort_key (sort_option sort) = false /\
  trace st = [CountDocuments_ collection; Find_ collection opts; All_] /\
  slots (world st) slot =
    apply_limit (Some (wrap_int64 limit))
      (skipn (Z.to_nat (wrap_int64 offset))
         (apply_sort (sort_option sort) (matching w collection p))).
Proof.
  intros Hrun opts.
  unfold Adapter.FindMany, bind, call, ret, start in Hrun.
  cbn [world locals trace Adapter.database storage CountDocuments memdb
       mem_CountDocuments app] in Hrun.
  assert (Hopts :
    (if negb (String.eqb sort EmptyString)
     then let '(sortKey, sortValue) :=
            if Adapter.strings_HasPrefix sort "-"
            then (Adapter.strings_TrimPrefix sort "-", -1) else (sort, 1) in
          SetSort (SetSkip (SetLimit options_Find (wrap_int64 limit)) (wrap_int64 offset))
            [(sortKey, sortValue)]
     else SetSkip (SetLimit options_Find (wrap_int64 limit)) (wrap_int64 offset)) = opts).
  { subst opts. unfold sort_option.
    destruct (String.eqb sort EmptyString); cbn [negb]; [reflexivity|].
    destruct (Adapter.strings_HasPrefix sort "-"); reflexivity. }
  rewrite Hopts in Hrun. clear Hopts.
  cbn [Find memdb mem_Find Skip Sort Limit] in Hrun.
  subst opts. cbn [Skip Sort Limit] in Hrun.
  destruct (wrap_int64 offset <? 0) eqn:Hskip; [cbn in Hrun; discriminate|].
  destruct (bad_sort_key (sort_option sort)) eqn:Hkey; [cbn in Hrun; discriminate|].
  cbn [world locals trace All memdb mem_All apply_skip app] in Hrun.
  injection Hrun as <- <-.
  cbn [world trace]. rewrite slots_store. repeat split.
Qed.

Lemma apply_sort_perm (o : option (list (string * Z))) (l : list Document) :
  Permutation (apply_sort o l) l.
Proof.
  destruct o as [keys|]; cbn; [|reflexivity].
  induction keys as [|kd keys IH]; cbn; [reflexivity|].
  now rewrite sort_by_perm.
Qed.

Lemma sort_option_descending (F : string) :
  sort_option ("-" ++ F) = Some [(F, -1)].
Proof.
  unfold sort_option, Adapter.strings_TrimPrefix, Adapter.strings_HasPrefix.
  cbn. replace (prefix EmptyString F) with true by (now destruct F).
  now rewrite Nat.sub_0_r, substring_all.
Qed.

Lemma sort_option_ascending (sort : string) :
  sort <> EmptyString -> Adapter.strings_HasPrefix sort "-" = false ->
  sort_option sort = Some [(sort, 1)].
Proof.
  intros Hne Hp. unfold sort_option. rewrite Hp.
  destruct (String.eqb_spec sort EmptyString); [contradiction | reflexivity].
Qed.

Lemma page_descending (F : string) (limit : option Z) (n : nat) (l : list Document) :
  descending_on F (apply_limit limit (skipn n (apply_sort (Some [(F, -1)]) l))).
Proof.
  apply Sorted_apply_limit, Sorted_skipn. cbn [apply_sort fold_right fst snd].
  apply (sort_by_sorted (key_leb F (-1)) (key_leb_total F (-1))).
Qed.

Lemma page_ascending (F : string) (limit : option Z) (n : nat) (l : list Document) :
  ascending_on F (apply_limit limit (skipn n (apply_sort (Some [(F, 1)]) l))).
Proof.
  apply Sorted_apply_limit, Sorted_skipn. cbn [apply_sort fold_right fst snd].
  apply (sort_by_sorted (key_leb F 1) (key_leb_total F 1)).
Qed.

Section Transaction.
Variables (Ctx Any W Cursor Session : Type).
Variable s : Adapter.Storage Ctx Any W Cursor Session.
Variable ctx : Ctx.
Variable fn : Ctx -> M W (option error).
Variables (w w0 : W) (sess : Session).
Hypothesis session_started :
  StartSession (Adapter.database s) session_options w = (inl sess, w0).

Lemma transaction_commits (w1 : W) :
  body_commits (Adapter.database s) ctx fn sess w0 w1 ->
  Adapter.RunInTransaction s ctx fn (start w) =
  (None,
   mkEnv (snd (EndSession (Adapter.database s) sess ctx w1)) tt
     [StartSession_ session_options; StartTransaction_; Fn_; CommitTransaction_;
      EndSession_]).
Proof.
  intros (wa & wb & Hs & Hf & Hc).
  unfold Adapter.RunInTransaction, bind, call, ret, start. cbn [world locals trace].
  fold session_options. rewrite session_started. cbn [world locals trace].
  rewrite Hs. cbn [world locals trace]. rewrite Hf. cbn [world locals trace].
  rewrite Hc. cbn [world locals trace app].
  now destruct (EndSession _ sess ctx w1).
Qed.

Lemma transaction_aborts (done : list dcall) (e : error) (w1 : W) :
  body_fails (Adapter.database s) ctx fn sess w0 done e w1 ->
  Adapter.RunInTransaction s ctx fn (start w) =
  let '(abortErr, w2) := AbortTransaction (Adapter.database s) sess ctx w1 in
  (match abortErr with
   | Some a => Some (Errorf_w_v a e)
   | None => Some e
   end,
   mkEnv (snd (EndSession (Adapter.database s) sess ctx w2)) tt
     (StartSession_ session_options :: done ++ [AbortTransaction_; EndSession_])).
Proof.
  intros Hfail.
  unfold Adapter.RunInTransaction, bind, call, ret, start. cbn [world locals trace].
  fold session_options. rewrite session_started. cbn [world locals trace].
  destruct Hfail as [e w' Hs | e wa w' Hs Hf | e wa wb w' Hs Hf Hc].
  - rewrite Hs. cbn [world locals trace].
    destruct (AbortTransaction _ sess ctx w') as [[a|] w2]; cbn [world locals trace app];
      now destruct (EndSession _ sess ctx w2).
  - rewrite Hs. cbn [world locals trace]. rewrite Hf. cbn [world locals trace].
    destruct (AbortTransaction _ sess ctx w') as [[a|] w2]; cbn [world locals trace app];
      now destruct (EndSession _ sess ctx w2).
  - rewrite Hs. cbn [world locals trace]. rewrite Hf. cbn [world locals trace].
    rewrite Hc. cbn [world locals trace].
    destruct (AbortTransaction _ sess ctx w') as [[a|] w2]; cbn [world locals trace app];
      now destruct (EndSession _ sess ctx w2).
Qed.

End Transaction.
(** C7 as amended: RunInTransaction, once its session is there.  When
    starting the transaction, [fn] and the commit all succeed, the
    transaction is committed and nil is returned.  When one of the three
    fails, the abort is called; if the abort succeeds the error of the failed
    step is returned as it is; if the abort fails too, the returned error
    wraps the abort's error, which is all there is on its [Unwrap] chain
    besides what the abort's error wraps itself, and its text is the abort's
    text, a space, and the text of the first error: the first error is kept
    as text, not as a value.  The session is ended in every case. *)
Theorem RunInTransaction_commits_or_aborts
    (Ctx Any W Cursor Session : Type) (s : Adapter.Storage Ctx Any W Cursor Session)
    (ctx : Ctx) (fn : Ctx -> M W (option error)) (w w0 : W) (sess : Session) :
  StartSession (Adapter.database s) session_options w = (inl sess, w0) ->
  let db := Adapter.database s in
  let run := Adapter.RunInTransaction s ctx fn (start w) in
  (forall w1,
     body_commits db ctx fn sess w0 w1 ->
     fst run = None /\
     trace (snd run) = [StartSession_ session_options; StartTransaction_; Fn_;
                        CommitTransaction_; EndSession_] /\
     world (snd run) = snd (EndSession db sess ctx w1)) /\
  (forall done e w1,
     body_fails db ctx fn sess w0 done e w1 ->
     trace (snd run) = StartSession_ session_options :: done
                         ++ [AbortTransaction_; EndSession_] /\
     (forall w2,
        AbortTransaction db sess ctx w1 = (None, w2) ->
        fst run = Some e /\ world (snd run) = snd (EndSession db sess ctx w2)) /\
     (forall a w2,
        AbortTransaction db sess ctx w1 = (Some a, w2) ->
        exists ret,
          fst run = Some ret /\
          ret = Errorf_w_v a e /\
          Unwrap ret = Some a /\
          chain ret = a :: chain a /\
          carries ret a /\
          Error ret = (Error a ++ " " ++ Error e)%string /\
          world (snd run) = snd (EndSession db sess ctx w2))).
Proof.
  intros Hsess db run. split.
  - intros w1 Hc. subst run db.
    rewrite (transaction_commits _ _ _ _ _ s ctx fn w w0 sess Hsess w1 Hc).
    repeat split.
  - intros done e w1 Hf. subst run db.
    rewrite (transaction_aborts _ _ _ _ _ s ctx fn w w0 sess Hsess done e w1 Hf).
    destruct (AbortTransaction (Adapter.database s) sess ctx w1) as [abortErr w2'].
    cbn [fst snd trace world]. split; [reflexivity|]. split.
    + intros w2 H. injection H as -> ->. split; reflexivity.
    + intros a w2 H. injection H as -> ->.
      exists (Errorf_w_v a e).
      split; [reflexivity|]. split; [reflexivity|]. split; [reflexivity|].
      split; [reflexivity|]. split; [right; now left|]. split; reflexivity.
Qed.

Lemma RunInTransaction_commits_or_aborts_witness :
  let w := mkDB (fun _ => []) (fun _ => []) None None None (Some (plain "no transaction")) in
  let fn := fun _ : unit => @ret dbstate _ (Some (plain "insert failed")) in
  let run := Adapter.RunInTransaction storage tt fn (start w) in
  exists ret,
    fst run = Some ret /\
    Error ret = "no transaction insert failed"%string /\
    Unwrap ret = Some (plain "no transaction") /\
    chain ret = [plain "no transaction"] /\
    trace (snd run) = [StartSession_ session_options; StartTransaction_; Fn_;
                       AbortTransaction_; EndSession_].
Proof.
  intros w fn run.
  destruct (RunInTransaction_commits_or_aborts unit any dbstate (list Document) unit
              storage tt fn w w tt eq_refl) as [_ Hab].
  destruct (Hab [StartTransaction_; Fn_] (plain "insert failed") w) as (Htr & _ & Hboth).
  - apply (fn_fails _ _ _ _ _ memdb tt fn tt w (plain "insert failed") w w); reflexivity.
  - destruct (Hboth (plain "no transaction") w eq_refl)
      as (ret & Hret & Heq & Hun & Hch & _ & Htxt & _).
    exists ret. subst ret. repeat split; assumption.
Defined.

(** C7 as it is claimed fails: when the body fails with "insert failed"
    and the abort with "no transaction", the error returned wraps the abort's
    error and has both texts, but the body's error is neither the returned
    error nor on its [Unwrap] chain. *)
Lemma RunInTransaction_first_error_as_text_only : ~ abort_failure_keeps_both.
Proof.
  intros H.
  destruct (H unit any dbstate (list Document) unit storage tt
              (fun _ : unit => @ret dbstate _ (Some (plain "insert failed")))
              (mkDB (fun _ => []) (fun _ => []) None None None
                    (Some (plain "no transaction")))
              (mkDB (fun _ => []) (fun _ => []) None None None
                    (Some (plain "no transaction")))
              tt [StartTransaction_; Fn_] (plain "insert failed")
              (mkDB (fun _ => []) (fun _ => []) None None None
                    (Some (plain "no transaction")))
              (plain "no transaction")
              (mkDB (fun _ => []) (fun _ => []) None None None
                    (Some (plain "no transaction")))
              eq_refl)
    as (ret & Hret & _ & He).
  - eapply fn_fails; reflexivity.
  - reflexivity.
  - cbn in Hret. injection Hret as <-.
    destruct He as [He | He]; [discriminate He|].
    cbn in He. destruct He as [He | []]. discriminate He.
Qed.

(** C6 as amended: a FindMany on the in-memory database that succeeds
    returns as total the number of all documents matching the filter,
    whatever limit and offset are; for a limit of 1 or more the destination
    gets at most [limit] documents (for a limit below 2^63, the first
    [limit] of those after the first [offset] ones), and for a limit of 0 it
    gets all the documents after the first [offset] ones; the page is
    descending on [F] for the sort string ["-F"], ascending on the sort string
    itself when that is not empty and does not start with ["-"], and for the
    empty sort string no sort is asked of the database. *)
Theorem FindMany_total_page_order (w : dbstate) (collection : string)
    (p : Document -> bool) (limit offset : Z) (sort : string) (slot : nat)
    (total : Z) (st : Adapter.St dbstate) :
  0 <= limit < 2 ^ 64 ->
  0 <= offset < 2 ^ 64 ->
  Z.of_nat (List.length (matching w collection p)) < 2 ^ 63 ->
  Adapter.FindMany storage tt collection (AFilter p) limit offset sort (ADest slot)
    (start w) = ((total, None), st) ->
  let page := slots (world st) slot in
  total = Z.of_nat (List.length (matching w collection p)) /\
  (exists ordered,
     Permutation ordered (matching w collection p) /\
     (1 <= limit < 2 ^ 63 -> page = window limit offset ordered) /\
     (limit = 0 -> page = skipn (Z.to_nat offset) ordered)) /\
  (1 <= limit -> Z.of_nat (List.length page) <= limit) /\
  (forall F, sort = ("-" ++ F)%string -> descending_on F page) /\
  (sort <> EmptyString -> Adapter.strings_HasPrefix sort "-" = false ->
   ascending_on sort page) /\
  (sort = EmptyString ->
   trace st = [CountDocuments_ collection;
               Find_ collection (mkFindOptions (Some (wrap_int64 limit)) (Some offset) None);
               All_]).
Proof.
  intros Hlimit Hoffset Hcount Hrun page.
  destruct (FindMany_mem _ _ _ _ _ _ _ _ _ Hrun) as (Htotal & Hskip & _ & Htrace & Hpage).
  destruct (wrap_int64_nonneg offset Hoffset Hskip) as [Hoff63 Hoff].
  rewrite Hoff in Hpage, Htrace. subst page.
  split; [| split; [| split; [| split; [| split]]]].
  - rewrite Htotal. unfold wrap_uint64. apply Z.mod_small. lia.
  - exists (apply_sort (sort_option sort) (matching w collection p)).
    split; [apply apply_sort_perm|]. split.
    + intros Hl. rewrite Hpage, wrap_int64_small by lia. cbn [apply_limit].
      replace (limit =? 0) with false by (symmetry; apply Z.eqb_neq; lia).
      now rewrite Z.abs_eq by lia.
    + intros ->. rewrite Hpage. reflexivity.
  - intros Hl. rewrite Hpage. cbn [apply_limit].
    set (rest := skipn (Z.to_nat offset) (apply_sort (sort_option sort) (matching w collection p))).
    destruct (Z_lt_le_dec limit (2 ^ 63)) as [Hlow|Hhigh].
    + rewrite wrap_int64_small by lia.
      replace (limit =? 0) with false by (symmetry; apply Z.eqb_neq; lia).
      rewrite Z.abs_eq by lia.
      pose proof (firstn_le_length (Z.to_nat limit) rest). lia.
    + rewrite wrap_int64_high by lia.
      replace (limit - 2 ^ 64 =? 0) with false by (symmetry; apply Z.eqb_neq; lia).
      pose proof (firstn_le_length (Z.to_nat (Z.abs (limit - 2 ^ 64))) rest). lia.
  - intros F ->. rewrite Hpage, sort_option_descending. apply page_descending.
  - intros Hne Hp. rewrite Hpage, (sort_option_ascending sort Hne Hp).
    apply page_ascending.
  - intros ->. exact Htrace.
Qed.

Lemma FindMany_total_page_order_witness :
  let docs := [[("age"%string, 30)]; [("age"%string, 25)]; [("age"%string, 41)]; [("age"%string, 36)]] in
  exists st,
    Adapter.FindMany storage tt "people"%string (AFilter (fun _ => true)) 2 1 "-age"%string (ADest 0)
      (start (people docs)) = ((4, None), st) /\
    slots (world st) 0%nat = [[("age"%string, 36)]; [("age"%string, 30)]] /\
    descending_on "age"%string (slots (world st) 0%nat).
Proof.
  intros docs.
  exists (snd (Adapter.FindMany storage tt "people"%string (AFilter (fun _ => true))
                 2 1 "-age"%string (ADest 0) (start (people docs)))).
  split; [reflexivity|]. split; [reflexivity|].
  apply (FindMany_total_page_order (people docs) "people"%string (fun _ => true) 2 1 "-age"%string 0%nat 4 _);
    [lia | lia | cbn; lia | reflexivity | reflexivity].
Defined.

(** C6 as it is claimed fails: with a limit of 0 the option [Limit: 0]
    goes to the database, for which 0 is no limit; three documents match and
    three are returned. *)
Lemma FindMany_limit_zero_unbounded : ~ page_within_limit_always.
Proof.
  intros H.
  specialize (H (people [[("age"%string, 30)]; [("age"%string, 25)]; [("age"%string, 41)]])
                "people"%string (fun _ => true) 0 0 EmptyString 0%nat 3 _
                ltac:(lia) eq_refl).
  cbn in H. lia.
Qed.

End StorageFacts.

(* ===================================================================== *)
(** ** More facts: identifier conversion *)
(* ===================================================================== *)

Module HexMore.
Import Hex HexCase HexFacts.

Lemma digit_value (c : byte) :
  is_hex_digit c = true ->
  0 <= reverseHexTable c <= 15 /\
  hextable_at (reverseHexTable c) = lower_byte c.
Proof. destruct c; vm_compute; intros H; try discriminate H; repeat split; discriminate. Qed.

Lemma lower_byte_value (c : byte) : reverseHexTable (lower_byte c) = reverseHexTable c.
Proof. destruct c; reflexivity. Qed.

Lemma lower_byte_zero (c : byte) : lower_byte c = x30 -> c = x30.
Proof. destruct c; vm_compute; intros H; try reflexivity; discriminate H. Qed.

Lemma nibbles_join (a b : Z) :
  0 <= a <= 15 -> 0 <= b <= 15 ->
  Z.shiftr (byte_val (byte_of_val (Z.lor (Z.shiftl a 4) b))) 4 = a /\
  Z.land (byte_val (byte_of_val (Z.lor (Z.shiftl a 4) b))) 15 = b.
Proof.
  intros Ha Hb.
  assert (Ea : a = 0 \/ a = 1 \/ a = 2 \/ a = 3 \/ a = 4 \/ a = 5 \/ a = 6 \/ a = 7 \/
               a = 8 \/ a = 9 \/ a = 10 \/ a = 11 \/ a = 12 \/ a = 13 \/ a = 14 \/ a = 15)
    by lia.
  assert (Eb : b = 0 \/ b = 1 \/ b = 2 \/ b = 3 \/ b = 4 \/ b = 5 \/ b = 6 \/ b = 7 \/
               b = 8 \/ b = 9 \/ b = 10 \/ b = 11 \/ b = 12 \/ b = 13 \/ b = 14 \/ b = 15)
    by lia.
  clear Ha Hb.
  repeat (destruct Ea as [Ea|Ea]; [subst a|]); try subst a;
    repeat (destruct Eb as [Eb|Eb]; [subst b; split; reflexivity|]);
    subst b; split; reflexivity.
Qed.
(** Decoding digits never fails, and encoding what was decoded gives the
    digits back in lower case. *)
Lemma Decode_digits (n : nat) : forall src,
  (List.length src <= 2 * n)%nat ->
  Nat.even (List.length src) = true ->
  forallb is_hex_digit src = true ->
  exists out,
    Decode src = (out, None) /\
    Encode out = map lower_byte src /\
    (2 * List.length out = List.length src)%nat.
Proof.
  induction n as [|n IH]; intros src Hlen Heven Hd.
  - destruct src; [|cbn in Hlen; lia]. exists []. repeat split.
  - destruct src as [|p [|q rest]].
    + exists []. repeat split.
    + cbn in Heven. discriminate.
    + cbn [forallb] in Hd.
      apply andb_prop in Hd. destruct Hd as [Hp Hd].
      apply andb_prop in Hd. destruct Hd as [Hq Hd].
      destruct (digit_value p Hp) as [Rp Lp].
      destruct (digit_value q Hq) as [Rq Lq].
      destruct (IH rest) as (out & Hdec & Henc & Hl);
        [cbn in Hlen; lia | exact Heven | exact Hd |].
      exists (byte_of_val (Z.lor (Z.shiftl (reverseHexTable p) 4) (reverseHexTable q)) :: out).
      cbn [Decode].
      replace (15 <? reverseHexTable p) with false by (symmetry; apply Z.ltb_ge; lia).
      replace (15 <? reverseHexTable q) with false by (symmetry; apply Z.ltb_ge; lia).
      rewrite Hdec. split; [reflexivity|].
      destruct (nibbles_join _ _ Rp Rq) as [Hhi Hlo].
      cbn [Encode map List.length]. rewrite Hhi, Hlo, Lp, Lq, Henc.
      split; [reflexivity | lia].
Qed.

Lemma valid_decodes (s : string) :
  is_hex24 s = true ->
  exists out,
    Decode (bytes_of s) = (out, None) /\
    Encode out = map lower_byte (bytes_of s) /\
    List.length out = 12%nat.
Proof.
  unfold is_hex24. intros H. apply andb_prop in H. destruct H as [Hlen Hd].
  apply Nat.eqb_eq in Hlen.
  destruct (Decode_digits 12 (bytes_of s)) as (out & Hdec & Henc & Hl).
  - rewrite length_bytes_of, Hlen. cbn. lia.
  - rewrite length_bytes_of, Hlen. reflexivity.
  - exact Hd.
  - exists out. repeat split; try assumption.
    rewrite length_bytes_of, Hlen in Hl. lia.
Qed.

Lemma ObjectID_of_valid (s : string) (out : list byte) :
  String.length s = 24%nat ->
  Decode (bytes_of s) = (out, None) ->
  List.length out = 12%nat ->
  ObjectIDFromHex s = (out, None).
Proof.
  intros Hlen Hdec Hl. unfold ObjectIDFromHex.
  rewrite Hlen, Hdec. cbn [Nat.eqb negb]. now rewrite fill12_full.
Qed.

(** X1: a string of 24 hexadecimal digits is converted without error, and
    the identifier written back in hexadecimal is the string in lower
    case. *)
Theorem ObjectID_then_Hex_lowers (s : string) :
  is_hex24 s = true ->
  snd (ObjectIDFromHex s) = None /\
  ObjectID_Hex (ObjectID s) = lower s.
Proof.
  intros Hv. destruct (valid_decodes s Hv) as (out & Hdec & Henc & Hl).
  unfold is_hex24 in Hv. apply andb_prop in Hv. destruct Hv as [Hlen _].
  apply Nat.eqb_eq in Hlen.
  unfold ObjectID. rewrite (ObjectID_of_valid s out Hlen Hdec Hl).
  split; [reflexivity|].
  unfold ObjectID_Hex, lower. now rewrite Henc.
Qed.

Lemma ObjectID_then_Hex_lowers_witness :
  ObjectID_Hex (ObjectID "507F1F77BCF86CD799439011") = "507f1f77bcf86cd799439011"%string.
Proof.
  apply (ObjectID_then_Hex_lowers "507F1F77BCF86CD799439011"). reflexivity.
Defined.

Lemma string_of_bytes_of (s : string) : string_of (bytes_of s) = s.
Proof. apply string_of_list_byte_of_string. Qed.

Lemma lower_zeros (l : list byte) : forall n,
  map lower_byte l = repeat x30 n -> l = repeat x30 n.
Proof.
  induction l as [|c l IH]; intros [|n] H; cbn in *; try discriminate; [reflexivity|].
  injection H as Hc Hl. f_equal; [now apply lower_byte_zero | now apply IH].
Qed.

(** X2: among the strings of 24 hexadecimal digits only the 24 zeros are
    converted to the zero identifier: for any other valid string the result
    cannot be mistaken for the result of a failed conversion. *)
Theorem ObjectID_zero_only_from_zeros (s : string) :
  is_hex24 s = true ->
  ObjectID s = NilObjectID ->
  s = zeros24.
Proof.
  intros Hv Hz. destruct (valid_decodes s Hv) as (out & Hdec & Henc & Hl).
  unfold is_hex24 in Hv. apply andb_prop in Hv. destruct Hv as [Hlen _].
  apply Nat.eqb_eq in Hlen.
  unfold ObjectID in Hz. rewrite (ObjectID_of_valid s out Hlen Hdec Hl) in Hz.
  subst out.
  change (Encode NilObjectID) with (repeat x30 24) in Henc.
  symmetry in Henc. apply lower_zeros in Henc.
  rewrite <- (string_of_bytes_of s), Henc. reflexivity.
Qed.

Lemma ObjectID_zero_only_from_zeros_witness :
  is_hex24 zeros24 = true /\ ObjectID zeros24 = NilObjectID /\ zeros24 = zeros24.
Proof.
  split; [reflexivity|]. split; [reflexivity|].
  apply (ObjectID_zero_only_from_zeros zeros24); reflexivity.
Defined.

(** Lower case changes no digit value, so decoding writes the same bytes
    and fails at the same place. *)
Lemma Decode_lower (n : nat) : forall src,
  (List.length src <= n)%nat ->
  fst (Decode (map lower_byte src)) = fst (Decode src) /\
  (snd (Decode (map lower_byte src)) = None <-> snd (Decode src) = None).
Proof.
  induction n as [|n IH]; intros src Hlen.
  - destruct src; [|cbn in Hlen; lia]. cbn. tauto.
  - destruct src as [|p [|q rest]].
    + cbn. tauto.
    + cbn [map Decode]. rewrite lower_byte_value.
      destruct (15 <? reverseHexTable p); cbn; split; try reflexivity;
        split; intros H; discriminate H.
    + cbn [map Decode]. rewrite !lower_byte_value.
      destruct (15 <? reverseHexTable p);
        [cbn; split; [reflexivity | split; intros H; discriminate H]|].
      destruct (15 <? reverseHexTable q);
        [cbn; split; [reflexivity | split; intros H; discriminate H]|].
      destruct (IH rest) as [Hf Hs]; [cbn in Hlen; lia|].
      destruct (Decode (map lower_byte rest)) as [o1 e1].
      destruct (Decode rest) as [o2 e2].
      cbn [fst snd] in *. subst o1. split; [reflexivity | exact Hs].
Qed.

Lemma length_lower (s : string) : String.length (lower s) = String.length s.
Proof. unfold lower. now rewrite length_string_of, length_map, length_bytes_of. Qed.

(** X3: the conversion does not tell upper case from lower case: a string
    and its lower-case form give the same identifier, whether the string is
    valid or not. *)
Theorem ObjectID_ignores_case (s : string) : ObjectID (lower s) = ObjectID s.
Proof.
  unfold ObjectID, ObjectIDFromHex. rewrite length_lower.
  destruct (negb (Nat.eqb (String.length s) 24)); [reflexivity|].
  unfold lower. rewrite bytes_of_string_of.
  destruct (Decode_lower _ (bytes_of s) (le_n _)) as [Hf Hs].
  destruct (Decode (map lower_byte (bytes_of s))) as [o1 [e1|]];
    destruct (Decode (bytes_of s)) as [o2 [e2|]]; cbn [fst snd] in *.
  - reflexivity.
  - destruct Hs as [_ Hs]. specialize (Hs eq_refl). discriminate.
  - destruct Hs as [Hs _]. specialize (Hs eq_refl). discriminate.
  - now subst o1.
Qed.

End HexMore.

(* ===================================================================== *)
(** ** More facts: every run of a read, and stacked decorators *)
(* ===================================================================== *)

Module RunFacts.
Import GoErr Eff Int Retrying Runs Stack RetryFacts.

(** The transient failures a row of calls starts with: either [n] of them,
    or fewer and then an outcome that settles. *)
Lemma transient_prefix (W : Type) (op : M W (Z * option error)) (n : nat) :
  forall w,
  exists rs w1,
    (List.length rs <= n)%nat /\
    attempts op (List.length rs) w = (map failed rs, w1) /\
    Forall (fun r => transient (snd r) = true) rs /\
    (List.length rs = n \/
     exists t r w2, op w1 = ((t, r), w2) /\ settles r = true).
Proof.
  induction n as [|n IH]; intros w.
  - exists [], w. repeat split; [cbn; lia | constructor | now left].
  - destruct (op w) as [[t r] w'] eqn:Hop.
    destruct (settles r) eqn:Hr.
    + exists [], w. repeat split; [cbn; lia | constructor |].
      right. exists t, r, w'. now split.
    + destruct r as [e|]; [|discriminate].
      cbn [settles] in Hr. apply negb_false_iff in Hr.
      destruct (IH w') as (rs & w1 & Hlen & Hatt & Htr & Hend).
      exists ((t, e) :: rs), w1. repeat split.
      * cbn; lia.
      * cbn [List.length attempts map]. now rewrite Hop, Hatt.
      * constructor; assumption.
      * destruct Hend as [Hn | Hs]; [left; cbn; lia | now right].
Qed.

Lemma attempts_end (W R : Type) (op : M W R) (n : nat) : forall w xs w1 y w2,
  attempts op n w = (xs, w1) ->
  op w1 = (y, w2) ->
  attempts op (S n) w = (xs ++ [y], w2).
Proof.
  induction n as [|n IH]; intros w xs w1 y w2 Hatt Hop.
  - cbn in Hatt. injection Hatt as <- <-. cbn. now rewrite Hop.
  - change (attempts op (S n) w)
      with (let '(r, w') := op w in
            let '(rs, w'') := attempts op n w' in (r :: rs, w'')) in Hatt.
    change (attempts op (S (S n)) w)
      with (let '(r, w') := op w in
            let '(rs, w'') := attempts op (S n) w' in (r :: rs, w'')).
    destruct (op w) as [r w'].
    destruct (attempts op n w') as [rs w''] eqn:Hrest.
    injection Hatt as <- <-.
    now rewrite (IH _ _ _ _ _ Hrest Hop).
Qed.

Lemma attempts_split (W R : Type) (op : M W R) (xs : list R) : forall n w ys w',
  attempts op (List.length xs + n) w = (xs ++ ys, w') ->
  exists w1, attempts op (List.length xs) w = (xs, w1) /\ attempts op n w1 = (ys, w').
Proof.
  induction xs as [|x xs IH]; intros n w ys w' H.
  - exists w. now split.
  - cbn [List.length Nat.add app] in H.
    change (attempts op (S (List.length xs + n)) w)
      with (let '(r, w1) := op w in
            let '(rs, w2) := attempts op (List.length xs + n) w1 in (r :: rs, w2)) in H.
    destruct (op w) as [r w1] eqn:Hop.
    destruct (attempts op (List.length xs + n) w1) as [rs w2] eqn:Hrest.
    injection H as -> -> ->.
    destruct (IH _ _ _ _ Hrest) as (w3 & Ha & Hb).
    exists w3. split; [|exact Hb].
    cbn [List.length attempts]. now rewrite Hop, Ha.
Qed.

Lemma log_attempts_app (a b : list event) :
  log_attempts (a ++ b) = log_attempts a ++ log_attempts b.
Proof.
  induction a as [|ev a IH]; [reflexivity|].
  destruct ev; cbn [app log_attempts]; now rewrite IH.
Qed.

Lemma log_attempts_retries (m : method) (errs : list error) : forall k,
  log_attempts (retries m k errs) = count_from k (List.length errs).
Proof.
  induction errs as [|e rest IH]; intros k; [reflexivity|].
  cbn [retries]. rewrite log_attempts_app, IH. reflexivity.
Qed.

(** 10 + 20 + ... + 10 n milliseconds. *)
Lemma sum_linear_backoffs (n : nat) : forall k,
  2 * fold_right Z.add 0 (linear_backoffs k n)
  = 10 * Millisecond * Z.of_nat n * (2 * k + Z.of_nat n - 1).
Proof.
  induction n as [|n IH]; intros k; [reflexivity|].
  cbn [linear_backoffs fold_right].
  rewrite Z.mul_add_distr_l, IH, Nat2Z.inj_succ.
  unfold Millisecond, Z.succ. nia.
Qed.

Section Reads.
Variables (Ctx Any W : Type).
Variable s : RetryingStorage Ctx Any W.

(** [read_gives_up] and [read_settles] from a state with a history. *)
Lemma read_gives_up_at (c : read_call Ctx Any) (w : W) (tr : list event)
    (front : list (Z * error)) (r10 : Z * error) (w' : W) :
  List.length front = 9%nat ->
  attempts (upstream_read (upstream s) c) 10 w = (map failed (front ++ [r10]), w') ->
  Forall (fun r => transient (snd r) = true) (front ++ [r10]) ->
  decorated_read s c (mkEnv w tt tr) =
  ((fst r10, errors_Wrap (Some (snd r10)) "exceeded retry limit"),
   mkEnv w' tt (tr ++ retries (method_of c) 1 (map snd (front ++ [r10])))).
Proof.
  intros Hlen Hatt Htr.
  destruct c as [ctx col f d | ctx col f d | ctx col f lim off srt d];
    cbn [decorated_read upstream_read method_of] in *.
  - unfold no_count at 1, FindOne.
    rewrite (loop_gives_up _ _ _ _ _ _ _ (plain_closure _ mFindOne _) front r10
               (mkEnv w tt tr) w' Hlen Hatt Htr).
    apply attempts_no_count in Hatt.
    rewrite map_app, Forall_app in Hatt. destruct Hatt as [_ H10].
    inversion H10 as [|? ? H0 _]; subst. cbn in H0. rewrite H0.
    cbn. f_equal. f_equal. clear. induction front; cbn; auto.
  - unfold no_count at 1, FindAll.
    rewrite (loop_gives_up _ _ _ _ _ _ _ (plain_closure _ mFindAll _) front r10
               (mkEnv w tt tr) w' Hlen Hatt Htr).
    apply attempts_no_count in Hatt.
    rewrite map_app, Forall_app in Hatt. destruct Hatt as [_ H10].
    inversion H10 as [|? ? H0 _]; subst. cbn in H0. rewrite H0.
    cbn. f_equal. f_equal. clear. induction front; cbn; auto.
  - unfold FindMany, with_local. unfold bind at 1. cbn [world trace].
    rewrite (loop_gives_up _ _ _ _ _ _ _ (counting_closure _ _) front r10
               (mkEnv w 0 tr) w' Hlen Hatt Htr).
    reflexivity.
Qed.

Lemma read_settles_at (c : read_call Ctx Any) (w : W) (tr : list event)
    (rs : list (Z * error)) (w1 : W) (t : Z) (r : option error) (w2 : W) :
  (List.length rs < 10)%nat ->
  attempts (upstream_read (upstream s) c) (List.length rs) w = (map failed rs, w1) ->
  Forall (fun r => transient (snd r) = true) rs ->
  upstream_read (upstream s) c w1 = ((t, r), w2) ->
  settles r = true ->
  decorated_read s c (mkEnv w tt tr) =
  ((t, r),
   mkEnv w2 tt (tr ++ retries (method_of c) 1 (map snd rs) ++ [Upstream (method_of c)])).
Proof.
  intros Hlen Hatt Htr Hop Hr.
  destruct c as [ctx col f d | ctx col f d | ctx col f lim off srt d];
    cbn [decorated_read upstream_read method_of] in *.
  - unfold no_count at 1, FindOne.
    rewrite (loop_settles_after _ _ _ _ _ _ _ (plain_closure _ mFindOne _) rs
               (mkEnv w tt tr) w1 t r w2 Hlen Hatt Htr Hop Hr).
    unfold no_count in Hop. destruct (Contract.FindOne _ _ _ _ _ w1).
    injection Hop as <- _ _. cbn.
    now destruct (fold_left _ rs tt).
  - unfold no_count at 1, FindAll.
    rewrite (loop_settles_after _ _ _ _ _ _ _ (plain_closure _ mFindAll _) rs
               (mkEnv w tt tr) w1 t r w2 Hlen Hatt Htr Hop Hr).
    unfold no_count in Hop. destruct (Contract.FindAll _ _ _ _ _ w1).
    injection Hop as <- _ _. cbn.
    now destruct (fold_left _ rs tt).
  - unfold FindMany, with_local. unfold bind at 1. cbn [world trace].
    rewrite (loop_settles_after _ _ _ _ _ _ _ (counting_closure _ _) rs
               (mkEnv w 0 tr) w1 t r w2 Hlen Hatt Htr Hop Hr).
    reflexivity.
Qed.

(** Every run of a read is one of the two. *)
Lemma read_cases (c : read_call Ctx Any) (w : W) :
  let op := upstream_read (upstream s) c in
  let m := method_of c in
  exists rs w1,
    attempts op (List.length rs) w = (map failed rs, w1) /\
    Forall (fun r => transient (snd r) = true) rs /\
    ((exists front r10,
        rs = front ++ [r10] /\ List.length front = 9%nat /\
        decorated_read s c (start w) =
        ((fst r10, Some (exceeded (snd r10))),
         mkEnv w1 tt (retries m 1 (map snd rs))))
     \/
     ((List.length rs < 10)%nat /\
      exists t r w2,
        op w1 = ((t, r), w2) /\ settles r = true /\
        decorated_read s c (start w) =
        ((t, r), mkEnv w2 tt (retries m 1 (map snd rs) ++ [Upstream m])))).
Proof.
  intros op m.
  destruct (transient_prefix W op 10 w) as (rs & w1 & Hlen & Hatt & Htr & Hend).
  exists rs, w1. split; [exact Hatt|]. split; [exact Htr|].
  destruct Hend as [H10 | (t & r & w2 & Hop & Hr)].
  - left.
    destruct (rev rs) as [|r10 front'] eqn:Hrev.
    { apply (f_equal (@List.length _)) in Hrev. rewrite length_rev in Hrev.
      cbn in Hrev. lia. }
    assert (Hrs : rs = rev front' ++ [r10]).
    { rewrite <- (rev_involutive rs), Hrev. reflexivity. }
    assert (Hf : List.length (rev front') = 9%nat).
    { rewrite Hrs, length_app in H10. cbn in H10. lia. }
    exists (rev front'), r10. split; [exact Hrs|]. split; [exact Hf|].
    rewrite H10 in Hatt. subst rs.
    apply (read_gives_up_at c w [] (rev front') r10 w1 Hf Hatt Htr).
  - destruct (Nat.eq_dec (List.length rs) 10) as [H10|Hne].
    + left.
      destruct (rev rs) as [|r10 front'] eqn:Hrev.
      { apply (f_equal (@List.length _)) in Hrev. rewrite length_rev in Hrev.
        cbn in Hrev. lia. }
      assert (Hrs : rs = rev front' ++ [r10]).
      { rewrite <- (rev_involutive rs), Hrev. reflexivity. }
      assert (Hf : List.length (rev front') = 9%nat).
      { rewrite Hrs, length_app in H10. cbn in H10. lia. }
      exists (rev front'), r10. split; [exact Hrs|]. split; [exact Hf|].
      rewrite H10 in Hatt. subst rs.
      apply (read_gives_up_at c w [] (rev front') r10 w1 Hf Hatt Htr).
    + right. split; [lia|]. exists t, r, w2. split; [exact Hop|]. split; [exact Hr|].
      apply (read_settles_at c w [] rs w1 t r w2); try assumption. lia.
Qed.

End Reads.

(** X4: whatever the upstream does, a read through RetryingStorage calls
    it at least once and at most 10 times, and leaves it in the state these
    calls leave it in. *)
Theorem read_calls_between_1_and_10 (Ctx Any W : Type)
    (s : RetryingStorage Ctx Any W) (c : read_call Ctx Any) (w : W) :
  let st := snd (decorated_read s c (start w)) in
  (1 <= calls (trace st) <= 10)%nat /\
  world st = snd (attempts (upstream_read (upstream s) c) (calls (trace st)) w).
Proof.
  destruct (read_cases _ _ _ s c w)
    as (rs & w1 & Hatt & Htr & [(front & r10 & Hrs & Hf & Hrun) | (Hlen & t & r & w2 & Hop & Hr & Hrun)]);
    rewrite Hrun; cbn [snd trace world].
  - assert (H10 : List.length rs = 10%nat) by (subst rs; rewrite length_app, Hf; reflexivity).
    rewrite calls_retries, length_map, H10. split; [lia|].
    rewrite H10 in Hatt. now rewrite Hatt.
  - rewrite calls_app, calls_retries, length_map. cbn [calls filter is_upstream List.length].
    replace (List.length rs + 1)%nat with (S (List.length rs)) by lia.
    split; [lia|].
    now rewrite (attempts_end _ _ _ _ _ _ _ _ _ Hatt Hop).
Qed.

(** X5: a read through RetryingStorage returns success only if the last
    call of the upstream did: the calls before it failed with transient
    errors, there were fewer than 10 of them, and the count returned is the
    count of that last call. *)
Theorem read_success_is_upstream_success (Ctx Any W : Type)
    (s : RetryingStorage Ctx Any W) (c : read_call Ctx Any) (w : W)
    (total : Z) (st : Env event W unit) :
  decorated_read s c (start w) = ((total, None), st) ->
  exists rs,
    (List.length rs < 10)%nat /\
    Forall (fun r => transient (snd r) = true) rs /\
    attempts (upstream_read (upstream s) c) (S (List.length rs)) w
      = (map failed rs ++ [(total, None)], world st) /\
    calls (trace st) = S (List.length rs).
Proof.
  intros Hrun.
  destruct (read_cases _ _ _ s c w)
    as (rs & w1 & Hatt & Htr & [(front & r10 & Hrs & Hf & Hrun') | (Hlen & t & r & w2 & Hop & Hr & Hrun')]);
    rewrite Hrun' in Hrun.
  - discriminate.
  - injection Hrun as -> -> <-.
    exists rs. split; [exact Hlen|]. split; [exact Htr|]. cbn [world trace]. split.
    + apply (attempts_end _ _ _ _ _ _ _ _ _ Hatt Hop).
    + rewrite calls_app, calls_retries, length_map. cbn. lia.
Qed.

Lemma read_success_is_upstream_success_witness :
  let sc := [(0, Some (Script.timeout "t1")); (7, None); (9, None)] in
  exists rs,
    (List.length rs < 10)%nat /\
    Forall (fun r => transient (snd r) = true) rs /\
    attempts (upstream_read (upstream Script.retrying)
                (CallFindMany tt "people"%string tt 5 0 EmptyString tt))
      (S (List.length rs)) sc
      = (map failed rs ++ [(7, None)], [(9, None)]).
Proof.
  intros sc.
  destruct (read_success_is_upstream_success unit unit Script.script Script.retrying
              (CallFindMany tt "people"%string tt 5 0 EmptyString tt) sc 7
              (snd (decorated_read Script.retrying
                      (CallFindMany tt "people"%string tt 5 0 EmptyString tt) (start sc)))
              eq_refl)
    as (rs & Hlen & Htr & Hatt & _).
  exists rs. repeat split; assumption.
Defined.

(** X6: an error returned by a read through RetryingStorage is the error
    of the last call of the upstream: that error itself when it is not
    transient, and when it is transient it was the 10th call and the error is
    returned wrapped as "exceeded retry limit".  Every call before the last
    failed with a transient error. *)
Theorem read_error_is_last_or_exhaustion (Ctx Any W : Type)
    (s : RetryingStorage Ctx Any W) (c : read_call Ctx Any) (w : W)
    (total : Z) (e : error) (st : Env event W unit) :
  decorated_read s c (start w) = ((total, Some e), st) ->
  exists rs last,
    Forall (fun r => transient (snd r) = true) rs /\
    attempts (upstream_read (upstream s) c) (S (List.length rs)) w
      = (map failed rs ++ [(total, Some last)], world st) /\
    calls (trace st) = S (List.length rs) /\
    ((transient last = false /\ (List.length rs < 10)%nat /\ e = last) \/
     (transient last = true /\ List.length rs = 9%nat /\ e = exceeded last)).
Proof.
  intros Hrun.
  destruct (read_cases _ _ _ s c w)
    as (rs & w1 & Hatt & Htr & [(front & r10 & Hrs & Hf & Hrun') | (Hlen & t & r & w2 & Hop & Hr & Hrun')]);
    rewrite Hrun' in Hrun.
  - injection Hrun as <- <- <-. subst rs.
    apply Forall_app in Htr. destruct Htr as [Hfront H10].
    inversion H10 as [|? ? Hlast _]; subst.
    exists front, (snd r10). split; [exact Hfront|]. cbn [world trace]. split.
    + rewrite length_app, Hf in Hatt. cbn [Nat.add List.length] in Hatt.
      rewrite Hf, Hatt, map_app. cbn [map failed]. now destruct r10.
    + split.
      * rewrite calls_retries, length_map, length_app, Hf. reflexivity.
      * right. repeat split; assumption.
  - injection Hrun as -> -> <-.
    cbn [settles] in Hr. apply negb_true_iff in Hr.
    exists rs, e. split; [exact Htr|]. cbn [world trace]. split.
    + apply (attempts_end _ _ _ _ _ _ _ _ _ Hatt Hop).
    + split.
      * rewrite calls_app, calls_retries, length_map. cbn. lia.
      * left. repeat split; assumption.
Qed.

Lemma read_error_is_last_or_exhaustion_witness :
  let sc := [(0, Some (Script.timeout "t1")); (0, Some Script.not_found); (9, None)] in
  exists rs last,
    Forall (fun r => transient (snd r) = true) rs /\
    attempts (upstream_read (upstream Script.retrying)
                (CallFindOne tt "people"%string tt tt))
      (S (List.length rs)) sc
      = (map failed rs ++ [(0, Some last)], [(9, None)]) /\
    ((transient last = false /\ Script.not_found = last) \/
     (transient last = true /\ Script.not_found = exceeded last)).
Proof.
  intros sc.
  destruct (read_error_is_last_or_exhaustion unit unit Script.script Script.retrying
              (CallFindOne tt "people"%string tt tt) sc 0 Script.not_found
              (snd (decorated_read Script.retrying
                      (CallFindOne tt "people"%string tt tt) (start sc)))
              eq_refl)
    as (rs & last & Htr & Hatt & _ & Hcase).
  exists rs, last. split; [exact Htr|]. split; [exact Hatt|].
  destruct Hcase as [(Hn & _ & He) | (Ht & _ & He)]; [left | right]; now split.
Defined.

(** X7: the sleeps of a read through RetryingStorage are 10 ms, 20 ms, ...,
    one after each call but the last, or after each of the 10 calls when it
    gives up; there are as many log lines, with the attempt numbers 1, 2, ...;
    in all the read sleeps 5 n (n + 1) ms for its n sleeps, never more than
    550 ms. *)
Theorem read_sleep_schedule (Ctx Any W : Type)
    (s : RetryingStorage Ctx Any W) (c : read_call Ctx Any) (w : W) :
  let tr := trace (snd (decorated_read s c (start w))) in
  exists n : nat,
    (n <= 10)%nat /\
    (calls tr = S n \/ (calls tr = 10%nat /\ n = 10%nat)) /\
    sleeps tr = linear_backoffs 1 n /\
    log_attempts tr = count_from 1 n /\
    total_sleep tr = 5 * Z.of_nat n * (Z.of_nat n + 1) * Millisecond /\
    total_sleep tr <= 550 * Millisecond.
Proof.
  intros tr.
  assert (Hsum : forall n : nat, (n <= 10)%nat ->
            fold_right Z.add 0 (linear_backoffs 1 n)
              = 5 * Z.of_nat n * (Z.of_nat n + 1) * Millisecond /\
            fold_right Z.add 0 (linear_backoffs 1 n) <= 550 * Millisecond).
  { intros n Hn. pose proof (sum_linear_backoffs n 1) as H.
    unfold Millisecond in *. split; nia. }
  subst tr.
  destruct (read_cases _ _ _ s c w)
    as (rs & w1 & Hatt & Htr & [(front & r10 & Hrs & Hf & Hrun) | (Hlen & t & r & w2 & Hop & Hr & Hrun)]);
    rewrite Hrun; cbn [snd trace]; unfold total_sleep.
  - assert (H10 : List.length rs = 10%nat) by (subst rs; rewrite length_app, Hf; reflexivity).
    exists 10%nat.
    rewrite calls_retries, sleeps_retries, log_attempts_retries, length_map, H10.
    split; [lia|]. split; [now right|]. split; [reflexivity|]. split; [reflexivity|].
    apply (Hsum 10%nat). lia.
  - exists (List.length rs).
    rewrite calls_app, sleeps_app, log_attempts_app, calls_retries, sleeps_retries,
      log_attempts_retries, length_map.
    cbn [calls filter is_upstream List.length sleeps log_attempts]. rewrite !app_nil_r.
    split; [lia|]. split; [left; lia|]. split; [reflexivity|]. split; [reflexivity|].
    apply Hsum. lia.
Qed.

Lemma transient_exceeded (e : error) : transient (exceeded e) = chain_transient e.
Proof.
  unfold transient, chain_transient, is_cancellation, transient_category, exceeded.
  cbn [errors_Is mongo_IsTimeout mongo_IsNetworkError is_RetryablePoolError
       errors_As_WaitQueueTimeoutError].
  now rewrite orb_false_r.
Qed.

Lemma chain_transient_transient (e : error) :
  chain_transient e = true -> transient e = true.
Proof.
  unfold transient, chain_transient, transient_category.
  destruct (is_cancellation e); cbn [negb andb]; [discriminate|].
  destruct (errors_Is e mongo_ErrClientDisconnected), (mongo_IsTimeout e),
    (mongo_IsNetworkError e), (is_RetryablePoolError e),
    (errors_As_WaitQueueTimeoutError e); cbn; congruence.
Qed.

(** The upstream of the outer decorator is the inner decorator. *)
Lemma upstream_read_twice (Ctx Any W : Type) (s : RetryingStorage Ctx Any W)
    (c : read_call Ctx Any) :
  upstream_read (upstream (twice s)) c = decorated_read s c.
Proof. destruct c; reflexivity. Qed.

Lemma flat_map_step (A B : Type) (f : A -> list B) (x : A) (l : list A) :
  flat_map f (x :: l) = f x ++ flat_map f l.
Proof. reflexivity. Qed.

Lemma flatten_step (row : list (Z * error) * (Z * error)) (b : rows) :
  flatten (row :: b) = (fst row ++ [snd row]) ++ flatten b.
Proof. reflexivity. Qed.

Lemma calls_rows (m : method) (b : rows) :
  Forall (fun row => List.length (fst row) = 9%nat) b ->
  calls (flat_map (fun row => retries m 1 (map snd (fst row ++ [snd row]))) b)
  = (10 * List.length b)%nat.
Proof.
  induction 1 as [|row b Hrow _ IH]; [reflexivity|].
  rewrite flat_map_step, calls_app, calls_retries, length_map, length_app, Hrow, IH.
  cbn [List.length]. lia.
Qed.

Lemma total_sleep_app (a b : list event) :
  total_sleep (a ++ b) = total_sleep a + total_sleep b.
Proof.
  unfold total_sleep. rewrite sleeps_app.
  induction (sleeps a) as [|d l IH]; cbn [app fold_right]; [reflexivity|].
  rewrite IH. apply Z.add_assoc.
Qed.

Lemma sleep_rows (m : method) (b : rows) :
  Forall (fun row => List.length (fst row) = 9%nat) b ->
  total_sleep (flat_map (fun row => retries m 1 (map snd (fst row ++ [snd row]))) b)
  = 550 * Millisecond * Z.of_nat (List.length b).
Proof.
  induction 1 as [|row b Hrow _ IH]; [reflexivity|].
  rewrite flat_map_step, total_sleep_app, IH.
  unfold total_sleep at 1.
  rewrite sleeps_retries, length_map, length_app, Hrow.
  cbn [List.length Nat.add linear_backoffs fold_right]. rewrite Nat2Z.inj_succ.
  unfold Millisecond. lia.
Qed.

(** Row after row of ten transient failures: the inner decorator gives up
    on each. *)
Lemma inner_rows (Ctx Any W : Type) (s : RetryingStorage Ctx Any W)
    (c : read_call Ctx Any) (b : rows) : forall w tr w',
  Forall (fun row => List.length (fst row) = 9%nat) b ->
  attempts (upstream_read (upstream s) c) (10 * List.length b) w
    = (map failed (flatten b), w') ->
  Forall (fun r => transient (snd r) = true) (flatten b) ->
  attempts (decorated_read s c) (List.length b) (mkEnv w tt tr)
  = (map failed (given_up b),
     mkEnv w' tt
       (tr ++ flat_map (fun row => retries (method_of c) 1 (map snd (fst row ++ [snd row]))) b)).
Proof.
  induction b as [|row b IH]; intros w tr w' Hlen Hatt Htr.
  - cbn in Hatt. injection Hatt as <-. cbn. now rewrite app_nil_r.
  - inversion Hlen as [|? ? Hrow Hlen']; subst.
    rewrite flatten_step in Hatt, Htr.
    rewrite map_app in Hatt.
    replace (10 * List.length (row :: b))%nat
      with (List.length (map failed (fst row ++ [snd row])) + 10 * List.length b)%nat in Hatt
      by (rewrite length_map, length_app, Hrow; cbn [List.length]; lia).
    apply attempts_split in Hatt. destruct Hatt as (w1 & Ha & Hb).
    rewrite length_map, length_app, Hrow in Ha. cbn [List.length Nat.add] in Ha.
    apply Forall_app in Htr. destruct Htr as [Htr1 Htr2].
    cbn [List.length attempts].
    rewrite (read_gives_up_at _ _ _ s c w tr (fst row) (snd row) w1 Hrow Ha Htr1).
    rewrite (IH w1 _ w' Hlen' Hb Htr2).
    rewrite flat_map_step, <- app_assoc. reflexivity.
Qed.

(** X8: a decorator stacked on a decorator, over an upstream that fails 10
    times with transient errors of which the 10th is recognized as a pool
    error only.  The inner decorator gives up after 10 calls; the error it
    returns is no pool error any more (the wrapper has another type), so the
    outer decorator returns it at once: one call of the inner decorator,
    10 calls of the upstream, no sleep of the outer one. *)
Theorem stacked_pool_error_is_not_retried (Ctx Any W : Type)
    (s : RetryingStorage Ctx Any W) (c : read_call Ctx Any) (w : W)
    (front : list (Z * error)) (r10 : Z * error) (w' : W) :
  List.length front = 9%nat ->
  attempts (upstream_read (upstream s) c) 10 w = (map failed (front ++ [r10]), w') ->
  Forall (fun r => transient (snd r) = true) (front ++ [r10]) ->
  chain_transient (snd r10) = false ->
  exists st,
    decorated_read (twice s) c (start (start w))
      = ((fst r10, Some (exceeded (snd r10))), st) /\
    calls (trace st) = 1%nat /\
    sleeps (trace st) = [] /\
    calls (trace (world st)) = 10%nat /\
    world (world st) = w'.
Proof.
  intros Hlen Hatt Htr Hpool.
  eexists. split.
  - apply (read_settles_at _ _ _ (twice s) c (start w) [] [] (start w)
             (fst r10) (Some (exceeded (snd r10)))
             (mkEnv w' tt (retries (method_of c) 1 (map snd (front ++ [r10]))))).
    + cbn; lia.
    + reflexivity.
    + constructor.
    + rewrite upstream_read_twice.
      apply (read_gives_up_at _ _ _ s c w [] front r10 w' Hlen Hatt Htr).
    + cbn [settles]. now rewrite transient_exceeded, Hpool.
  - cbn [world trace retries app]. repeat split.
    rewrite calls_retries, length_map, length_app, Hlen. reflexivity.
Qed.

Lemma stacked_pool_error_is_not_retried_witness :
  let e := Opaque (mkForeign "connection pool cleared" false false false false true false) in
  exists st,
    decorated_read (twice Script.retrying) (CallFindOne tt "people"%string tt tt)
      (start (start (repeat (0, Some e) 10 ++ [(0, None)])))
      = ((0, Some (exceeded e)), st) /\
    calls (trace st) = 1%nat /\
    calls (trace (world st)) = 10%nat /\
    world (world st) = [(0, None)].
Proof.
  intros e.
  destruct (stacked_pool_error_is_not_retried unit unit Script.script Script.retrying
              (CallFindOne tt "people"%string tt tt)
              (repeat (0, Some e) 10 ++ [(0, None)])
              (repeat (0, e) 9) (0, e) [(0, None)])
    as (st & Hrun & Hc & _ & Hi & Hw).
  - reflexivity.
  - reflexivity.
  - repeat constructor.
  - reflexivity.
  - exists st. repeat split; assumption.
Defined.

(** X9: a decorator stacked on a decorator, over an upstream that fails
    100 times with errors that are transient by a category other than the
    pool error.  Each time the inner decorator gives up, the error it returns
    is transient for the outer one too, so the outer decorator calls the
    inner one 10 times: 100 calls of the upstream, 5.5 s of sleep in the
    inner decorator and 550 ms in the outer one, and the 100th error comes
    back wrapped twice. *)
Theorem stacked_decorators_multiply (Ctx Any W : Type)
    (s : RetryingStorage Ctx Any W) (c : read_call Ctx Any) (w : W)
    (b : rows) (row10 : list (Z * error) * (Z * error)) (w' : W) :
  List.length b = 9%nat ->
  Forall (fun row => List.length (fst row) = 9%nat) (b ++ [row10]) ->
  attempts (upstream_read (upstream s) c) 100 w
    = (map failed (flatten (b ++ [row10])), w') ->
  Forall (fun r => chain_transient (snd r) = true) (flatten (b ++ [row10])) ->
  exists st,
    decorated_read (twice s) c (start (start w))
      = ((fst (snd row10), Some (exceeded (exceeded (snd (snd row10))))), st) /\
    calls (trace st) = 10%nat /\
    calls (trace (world st)) = 100%nat /\
    world (world st) = w' /\
    total_sleep (trace st) = 550 * Millisecond /\
    total_sleep (trace (world st)) = 5500 * Millisecond.
Proof.
  intros Hb Hrows Hatt Hct.
  assert (Hlenb : List.length (b ++ [row10]) = 10%nat)
    by (rewrite length_app, Hb; reflexivity).
  assert (Htr : Forall (fun r => transient (snd r) = true) (flatten (b ++ [row10]))).
  { eapply Forall_impl; [|exact Hct]. intros r. apply chain_transient_transient. }
  assert (Hlast : Forall (fun r => transient (snd r) = true) (given_up (b ++ [row10]))).
  { unfold given_up. apply Forall_map. apply Forall_forall. intros row Hin.
    cbn [snd]. rewrite transient_exceeded.
    rewrite Forall_forall in Hct. apply Hct.
    unfold flatten. apply in_flat_map. exists row. split; [exact Hin|].
    apply in_or_app. right. now left. }
  pose proof (inner_rows _ _ _ s c (b ++ [row10]) w [] w' Hrows) as Hinner.
  rewrite Hlenb in Hinner. specialize (Hinner Hatt Htr).
  rewrite <- upstream_read_twice in Hinner.
  unfold given_up in Hinner, Hlast. rewrite map_app in Hinner, Hlast.
  cbn [map] in Hinner, Hlast.
  eexists. split.
  - eapply (read_gives_up_at _ _ _ (twice s) c (start w) []
              (map (fun row => (fst (snd row), exceeded (snd (snd row)))) b)
              (fst (snd row10), exceeded (snd (snd row10)))).
    + now rewrite length_map.
    + exact Hinner.
    + exact Hlast.
  - cbn [world trace app fst snd].
    rewrite calls_retries, length_map, length_app, length_map, Hb.
    rewrite (calls_rows _ _ Hrows), (sleep_rows _ _ Hrows), Hlenb.
    unfold total_sleep. rewrite sleeps_retries, length_map, length_app, length_map, Hb.
    repeat split.
Qed.

Lemma stacked_decorators_multiply_witness :
  let e := Script.timeout "socket timeout" in
  let row := (repeat (0, e) 9, (0, e)) in
  exists st,
    decorated_read (twice Script.retrying) (CallFindOne tt "people"%string tt tt)
      (start (start (repeat (0, Some e) 100)))
      = ((0, Some (exceeded (exceeded e))), st) /\
    calls (trace st) = 10%nat /\
    calls (trace (world st)) = 100%nat.
Proof.
  intros e row.
  destruct (stacked_decorators_multiply unit unit Script.script Script.retrying
              (CallFindOne tt "people"%string tt tt)
              (repeat (0, Some e) 100) (repeat row 9) row [])
    as (st & Hrun & Hc & Hi & _).
  - reflexivity.
  - repeat constructor.
  - reflexivity.
  - repeat constructor.
  - exists st. repeat split; assumption.
Defined.

End RunFacts.

(* ===================================================================== *)
(** ** More facts: Storage *)
(* ===================================================================== *)

Module StorageMore.
Import GoErr Eff Int Driver DriverOps MemDB Txn Pages StorageRuns StorageFacts.

Lemma as_int64_wrap (v : Z) : 0 <= v < 2 ^ 64 -> wrap_int64 v = as_int64 v.
Proof.
  intros Hv. unfold as_int64.
  destruct (Z.ltb_spec v (2 ^ 63)).
  - apply wrap_int64_small. lia.
  - apply wrap_int64_high. lia.
Qed.

Section Transaction.
Variables (Ctx Any W Cursor Session : Type).
Variable s : Adapter.Storage Ctx Any W Cursor Session.
Variable ctx : Ctx.
Variable fn : Ctx -> M W (option error).

(** The body of a transaction commits or fails at one of its steps. *)
Lemma body_cases (sess : Session) (w0 : W) :
  (exists w1, body_commits (Adapter.database s) ctx fn sess w0 w1) \/
  (exists done e w1, body_fails (Adapter.database s) ctx fn sess w0 done e w1).
Proof.
  destruct (StartTransaction (Adapter.database s) sess w0) as [[e|] wa] eqn:Hs.
  - right. exists [StartTransaction_], e, wa. now apply start_fails.
  - destruct (fn (NewSessionContext (Adapter.database s) ctx sess) wa) as [[e|] wb] eqn:Hf.
    + right. exists [StartTransaction_; Fn_], e, wb. now apply fn_fails with (w1 := wa).
    + destruct (CommitTransaction (Adapter.database s) sess
                  (NewSessionContext (Adapter.database s) ctx sess) wb) as [[e|] wc] eqn:Hc.
      * right. exists [StartTransaction_; Fn_; CommitTransaction_], e, wc.
        now apply commit_fails with (w1 := wa) (w2 := wb).
      * left. exists wc, wa, wb. repeat split; assumption.
Qed.

Lemma no_session (w w' : W) (e : error) :
  StartSession (Adapter.database s) session_options w = (inr e, w') ->
  Adapter.RunInTransaction s ctx fn (start w)
  = (Some e, mkEnv w' tt [StartSession_ session_options]).
Proof.
  intros H. unfold Adapter.RunInTransaction, bind, call, ret, start.
  cbn [world locals trace]. fold session_options. now rewrite H.
Qed.

Lemma done_has_no_abort (sess : Session) (w0 : W) (done : list dcall) (e : error) (w1 : W) :
  body_fails (Adapter.database s) ctx fn sess w0 done e w1 ->
  ~ In AbortTransaction_ done /\ ~ In EndSession_ done.
Proof.
  intros H. destruct H; cbn; split; intros Hin;
    repeat (destruct Hin as [Hin|Hin]; [discriminate|]); exact Hin.
Qed.

End Transaction.

(** X10: when the session cannot be started, RunInTransaction returns the
    error of StartSession as it is and does nothing else: no transaction is
    started, the body is not run, nothing is aborted and no session is
    ended. *)
Theorem RunInTransaction_without_session
    (Ctx Any W Cursor Session : Type) (s : Adapter.Storage Ctx Any W Cursor Session)
    (ctx : Ctx) (fn : Ctx -> M W (option error)) (w w' : W) (e : error) :
  StartSession (Adapter.database s) session_options w = (inr e, w') ->
  let run := Adapter.RunInTransaction s ctx fn (start w) in
  fst run = Some e /\
  world (snd run) = w' /\
  trace (snd run) = [StartSession_ session_options].
Proof.
  intros H run. subst run. rewrite (no_session _ _ _ _ _ s ctx fn w w' e H).
  repeat split.
Qed.

Lemma RunInTransaction_without_session_witness :
  let w := mkDB (fun _ => []) (fun _ => []) (Some (plain "no reachable servers"))
             None None None in
  let run := Adapter.RunInTransaction storage tt
               (fun _ : unit => @ret dbstate _ None) (start w) in
  fst run = Some (plain "no reachable servers") /\
  world (snd run) = w /\
  trace (snd run) = [StartSession_ session_options].
Proof.
  intros w.
  apply (RunInTransaction_without_session unit any dbstate (list Document) unit
           storage tt (fun _ : unit => @ret dbstate _ None) w w
           (plain "no reachable servers")).
  reflexivity.
Defined.

(** X11: RunInTransaction returns nil only when the transaction was
    committed: the session was started, and starting the transaction, the
    body and the commit all succeeded.  No failure of any of them, and no
    failed abort, is ever turned into success. *)
Theorem RunInTransaction_nil_means_committed
    (Ctx Any W Cursor Session : Type) (s : Adapter.Storage Ctx Any W Cursor Session)
    (ctx : Ctx) (fn : Ctx -> M W (option error)) (w : W) :
  fst (Adapter.RunInTransaction s ctx fn (start w)) = None ->
  exists sess w0 w1,
    StartSession (Adapter.database s) session_options w = (inl sess, w0) /\
    body_commits (Adapter.database s) ctx fn sess w0 w1 /\
    world (snd (Adapter.RunInTransaction s ctx fn (start w)))
      = snd (EndSession (Adapter.database s) sess ctx w1).
Proof.
  intros Hnil.
  destruct (StartSession (Adapter.database s) session_options w) as [[sess|e] w0] eqn:Hs.
  - destruct (body_cases _ _ _ _ _ s ctx fn sess w0)
      as [(w1 & Hc) | (done & e & w1 & Hf)].
    + exists sess, w0, w1. split; [reflexivity|]. split; [exact Hc|].
      now rewrite (transaction_commits _ _ _ _ _ s ctx fn w w0 sess Hs w1 Hc).
    + rewrite (transaction_aborts _ _ _ _ _ s ctx fn w w0 sess Hs done e w1 Hf) in Hnil.
      destruct (AbortTransaction (Adapter.database s) sess ctx w1) as [[a|] w2];
        discriminate Hnil.
  - rewrite (no_session _ _ _ _ _ s ctx fn w w0 e Hs) in Hnil. discriminate Hnil.
Qed.

Lemma RunInTransaction_nil_means_committed_witness :
  let w := mkDB (fun _ => []) (fun _ => []) None None None (Some (plain "no transaction")) in
  let fn := fun _ : unit => @ret dbstate _ None in
  exists w1, body_commits memdb tt fn tt w w1.
Proof.
  intros w fn.
  destruct (RunInTransaction_nil_means_committed unit any dbstate (list Document) unit
              storage tt fn w eq_refl) as (sess & w0 & w1 & Hs & Hc & _).
  injection Hs as _ <-. destruct sess. exists w1. exact Hc.
Defined.

(** X12: once the session is started, RunInTransaction ends it, as its
    last call and only then, however the transaction goes; and it calls
    abort exactly in the runs that return an error. *)
Theorem RunInTransaction_always_ends_session
    (Ctx Any W Cursor Session : Type) (s : Adapter.Storage Ctx Any W Cursor Session)
    (ctx : Ctx) (fn : Ctx -> M W (option error)) (w w0 : W) (sess : Session) :
  StartSession (Adapter.database s) session_options w = (inl sess, w0) ->
  let run := Adapter.RunInTransaction s ctx fn (start w) in
  exists mid,
    trace (snd run) = StartSession_ session_options :: mid ++ [EndSession_] /\
    ~ In EndSession_ mid /\
    (In AbortTransaction_ mid <-> fst run <> None).
Proof.
  intros Hs run. subst run.
  destruct (body_cases _ _ _ _ _ s ctx fn sess w0)
    as [(w1 & Hc) | (done & e & w1 & Hf)].
  - rewrite (transaction_commits _ _ _ _ _ s ctx fn w w0 sess Hs w1 Hc).
    exists [StartTransaction_; Fn_; CommitTransaction_]. cbn [fst snd trace].
    split; [reflexivity|]. split.
    + cbn. intros Hin. repeat (destruct Hin as [Hin|Hin]; [discriminate|]). exact Hin.
    + split; [|intros H; now contradiction H].
      cbn. intros Hin. repeat (destruct Hin as [Hin|Hin]; [discriminate|]). contradiction.
  - rewrite (transaction_aborts _ _ _ _ _ s ctx fn w w0 sess Hs done e w1 Hf).
    destruct (done_has_no_abort _ _ _ _ _ s ctx fn sess w0 done e w1 Hf) as [_ Hne].
    destruct (AbortTransaction (Adapter.database s) sess ctx w1) as [abortErr w2].
    exists (done ++ [AbortTransaction_]). cbn [fst snd trace].
    split; [now rewrite <- app_assoc|]. split.
    + intros Hin. apply in_app_or in Hin. destruct Hin as [Hin|Hin]; [now apply Hne|].
      cbn in Hin. destruct Hin as [Hin|Hin]; [discriminate | exact Hin].
    + split.
      * intros _. destruct abortErr; discriminate.
      * intros _. apply in_or_app. right. now left.
Qed.

Lemma RunInTransaction_always_ends_session_witness :
  let w := mkDB (fun _ => []) (fun _ => []) None None (Some (plain "write conflict")) None in
  let run := Adapter.RunInTransaction storage tt
               (fun _ : unit => @ret dbstate _ None) (start w) in
  exists mid,
    trace (snd run) = StartSession_ session_options :: mid ++ [EndSession_] /\
    ~ In EndSession_ mid /\
    (In AbortTransaction_ mid <-> fst run <> None).
Proof.
  intros w.
  apply (RunInTransaction_always_ends_session unit any dbstate (list Document) unit
           storage tt (fun _ : unit => @ret dbstate _ None) w w tt).
  reflexivity.
Defined.

Section FindMany.
Variables (Ctx Any W Cursor Session : Type).
Variable s : Adapter.Storage Ctx Any W Cursor Session.

(** FindMany, call by call. *)
Lemma FindMany_run (ctx : Ctx) (collection : string) (filter : Any)
    (limit offset : Z) (sort : string) (dest : Any) (w : W) :
  0 <= limit < 2 ^ 64 ->
  0 <= offset < 2 ^ 64 ->
  Adapter.FindMany s ctx collection filter limit offset sort dest (start w) =
  let db := Adapter.database s in
  let opts := find_options limit offset sort in
  let '((count, cerr), w1) := CountDocuments db ctx collection filter w in
  match cerr with
  | Some _ => ((wrap_uint64 count, cerr), mkEnv w1 tt [CountDocuments_ collection])
  | None =>
      let '(r, w2) := Find db ctx collection filter opts w1 in
      match r with
      | inr e =>
          ((wrap_uint64 count, Some e),
           mkEnv w2 tt [CountDocuments_ collection; Find_ collection opts])
      | inl cursor =>
          let '(aerr, w3) := All db cursor ctx dest w2 in
          ((wrap_uint64 count, aerr),
           mkEnv w3 tt [CountDocuments_ collection; Find_ collection opts; All_])
      end
  end.
Proof.
  intros Hl Ho.
  unfold Adapter.FindMany, bind, call, ret, start. cbn [world locals trace app].
  cbv zeta.
  destruct (CountDocuments (Adapter.database s) ctx collection filter w)
    as [[count [e|]] w1]; [reflexivity|].
  cbn [world locals trace app].
  assert (Hopts :
    (if negb (String.eqb sort EmptyString)
     then let '(sortKey, sortValue) :=
            if Adapter.strings_HasPrefix sort "-"
            then (Adapter.strings_TrimPrefix sort "-", -1) else (sort, 1) in
          SetSort (SetSkip (SetLimit options_Find (wrap_int64 limit)) (wrap_int64 offset))
            [(sortKey, sortValue)]
     else SetSkip (SetLimit options_Find (wrap_int64 limit)) (wrap_int64 offset))
    = find_options limit offset sort).
  { unfold find_options, sort_option.
    rewrite (as_int64_wrap limit Hl), (as_int64_wrap offset Ho).
    destruct (String.eqb sort EmptyString); cbn [negb]; [reflexivity|].
    destruct (Adapter.strings_HasPrefix sort "-"); reflexivity. }
  rewrite Hopts.
  destruct (Find (Adapter.database s) ctx collection filter
              (find_options limit offset sort) w1) as [[cursor|e] w2];
    cbn [world locals trace app]; [|reflexivity].
  now destruct (All (Adapter.database s) cursor ctx dest w2).
Qed.

End FindMany.

(** X13: FindMany counts first and stops at the first call that fails.
    The total it returns is always the count, as a uint64, also next to an
    error.  When the count fails nothing is fetched; otherwise Find is given
    the limit and the offset converted to int64 (from 2^63 on these are
    negative numbers) and the sort document; when Find fails nothing is
    decoded into the destination; otherwise the error returned is that of the
    decoding. *)
Theorem FindMany_stops_at_first_failure
    (Ctx Any W Cursor Session : Type) (s : Adapter.Storage Ctx Any W Cursor Session)
    (ctx : Ctx) (collection : string) (filter : Any)
    (limit offset : Z) (sort : string) (dest : Any) (w : W) :
  0 <= limit < 2 ^ 64 ->
  0 <= offset < 2 ^ 64 ->
  let db := Adapter.database s in
  let run := Adapter.FindMany s ctx collection filter limit offset sort dest (start w) in
  let counted := CountDocuments db ctx collection filter w in
  let opts := find_options limit offset sort in
  fst (fst run) = wrap_uint64 (fst (fst counted)) /\
  (forall e, snd (fst counted) = Some e ->
     snd (fst run) = Some e /\
     snd run = mkEnv (snd counted) tt [CountDocuments_ collection]) /\
  (snd (fst counted) = None ->
     (forall e w2,
        Find db ctx collection filter opts (snd counted) = (inr e, w2) ->
        snd (fst run) = Some e /\
        snd run = mkEnv w2 tt [CountDocuments_ collection; Find_ collection opts]) /\
     (forall cursor w2,
        Find db ctx collection filter opts (snd counted) = (inl cursor, w2) ->
        snd (fst run) = fst (All db cursor ctx dest w2) /\
        snd run = mkEnv (snd (All db cursor ctx dest w2)) tt
                    [CountDocuments_ collection; Find_ collection opts; All_])).
Proof.
  intros Hl Ho db run counted opts. subst run counted opts db.
  rewrite (FindMany_run _ _ _ _ _ s ctx collection filter limit offset sort dest w Hl Ho).
  cbv zeta.
  destruct (CountDocuments (Adapter.database s) ctx collection filter w)
    as [[count cerr] w1].
  cbn [fst snd]. destruct cerr as [ce|].
  - split; [reflexivity|]. split.
    + intros e He. injection He as <-. split; reflexivity.
    + intros H. discriminate H.
  - destruct (Find (Adapter.database s) ctx collection filter
                (find_options limit offset sort) w1) as [[cursor|e] w2] eqn:Hfind.
    + destruct (All (Adapter.database s) cursor ctx dest w2) as [aerr w3] eqn:Hall.
      split; [reflexivity|]. split; [intros e He; discriminate He|].
      intros _. split.
      * intros e w2' H. discriminate H.
      * intros cursor' w2' H. injection H as <- <-. rewrite Hall. split; reflexivity.
    + split; [reflexivity|]. split; [intros e' He; discriminate He|].
      intros _. split.
      * intros e' w2' H. injection H as <- <-. split; reflexivity.
      * intros cursor' w2' H. discriminate H.
Qed.

Lemma FindMany_stops_at_first_failure_witness :
  let w := people [[("age"%string, 30)]; [("age"%string, 25)]] in
  let run := Adapter.FindMany storage tt "people"%string (AFilter (fun _ => true))
               1 (2 ^ 63) EmptyString (ADest 0) (start w) in
  fst run = (2, Some (plain "skip value must be non-negative")) /\
  snd run = mkEnv w tt [CountDocuments_ "people";
                        Find_ "people" (mkFindOptions (Some 1) (Some (- 2 ^ 63)) None)].
Proof.
  intros w.
  destruct (FindMany_stops_at_first_failure unit any dbstate (list Document) unit
              storage tt "people"%string (AFilter (fun _ => true))
              1 (2 ^ 63) EmptyString (ADest 0) w ltac:(lia) ltac:(lia))
    as (Htotal & _ & Hrest).
  destruct (Hrest eq_refl) as [Hfind _].
  destruct (Hfind (plain "skip value must be non-negative") w eq_refl) as [He Hst].
  split; [|exact Hst].
  rewrite (surjective_pairing (fst _)), Htotal, He. reflexivity.
Defined.

(** X14: for every driver, when the count succeeds and the driver's Find
    answers the options [Limit: 0, Skip: 0] as it answers no options, a
    FindMany with limit 0, offset 0 and the empty sort string is the count
    followed by what FindAll does from the state the count left: it returns
    the count with FindAll's error, leaves FindAll's state, and after the
    count makes FindAll's calls, its Find carrying the two zero options. *)
Theorem FindMany_unbounded_is_count_then_FindAll
    (Ctx Any W Cursor Session : Type) (s : Adapter.Storage Ctx Any W Cursor Session)
    (ctx : Ctx) (collection : string) (filter dest : Any) (w : W)
    (count : Z) (w1 : W) :
  let db := Adapter.database s in
  let zero := find_options 0 0 EmptyString in
  CountDocuments db ctx collection filter w = ((count, None), w1) ->
  Find db ctx collection filter zero w1 = Find db ctx collection filter options_Find w1 ->
  let many := Adapter.FindMany s ctx collection filter 0 0 EmptyString dest (start w) in
  let all := AdapterOps.FindAll s ctx collection filter dest (start w1) in
  fst many = (wrap_uint64 count, fst all) /\
  world (snd many) = world (snd all) /\
  trace (snd many) = CountDocuments_ collection :: Find_ collection zero :: tl (trace (snd all)) /\
  trace (snd all) = Find_ collection options_Find :: tl (trace (snd all)).
Proof.
  intros db zero Hcount Hfind many all. subst many all db zero.
  rewrite (FindMany_run _ _ _ _ _ s ctx collection filter 0 0 EmptyString dest w)
    by lia.
  cbv zeta. rewrite Hcount, Hfind.
  unfold AdapterOps.FindAll, bind, call, ret, start. cbn [world locals trace app].
  destruct (Find (Adapter.database s) ctx collection filter options_Find w1)
    as [[cursor|e] w2]; cbn [world locals trace app fst snd tl].
  - destruct (All (Adapter.database s) cursor ctx dest w2) as [aerr w3].
    cbn [world locals trace app fst snd tl]. repeat split.
  - repeat split.
Qed.

Lemma FindMany_unbounded_is_count_then_FindAll_witness :
  let w := people [[("age"%string, 30)]; [("age"%string, 25)]; [("age"%string, 41)]] in
  let many := Adapter.FindMany storage tt "people"%string (AFilter (fun _ => true))
                0 0 EmptyString (ADest 0) (start w) in
  let all := AdapterOps.FindAll storage tt "people"%string (AFilter (fun _ => true))
               (ADest 0) (start w) in
  fst many = (3, fst all) /\ world (snd many) = world (snd all).
Proof.
  intros w.
  destruct (FindMany_unbounded_is_count_then_FindAll unit any dbstate (list Document) unit
              storage tt "people"%string (AFilter (fun _ => true)) (ADest 0) w 3 w
              eq_refl eq_refl) as (He & Hw & _).
  split; [exact He | exact Hw].
Defined.

(** X15: Update, Upsert, Delete and DeleteMany never return a count other
    than 0 together with an error, whatever the driver hands back with its
    error; and they return an error exactly when the driver reported one. *)
Theorem writes_count_zero_with_error
    (Ctx Any W SingleResult : Type) (ops : Collections Ctx Any W SingleResult)
    (ctx : Ctx) (collection : string) (id : Hex.primitive_ObjectID)
    (filter update : Any) (w : W) :
  sound_report (UpdateOne ops ctx collection (bson_M_id ops id) update false w)
               (AdapterOps.Update ops ctx collection id update w) /\
  sound_report (UpdateOne ops ctx collection filter update true w)
               (AdapterOps.Upsert ops ctx collection filter update w) /\
  sound_report (DeleteOne ops ctx collection (bson_M_id ops id) w)
               (AdapterOps.Delete ops ctx collection id w) /\
  sound_report (DriverOps.DeleteMany ops ctx collection filter w)
               (AdapterOps.DeleteMany ops ctx collection filter w).
Proof.
  unfold sound_report, driver_failed,
    AdapterOps.Update, AdapterOps.Upsert, AdapterOps.Delete, AdapterOps.DeleteMany,
    bind, ret.
  repeat split;
    match goal with
    | |- context [let '(_, _) := ?x in _] => destruct x as [[r|partial e] w']
    end; cbn [fst snd] in *; try tauto; try congruence;
    try (intros _; discriminate); try (intros H; now contradiction H).
Qed.

End StorageMore.
